(** * DeleteUndefined: deleting calls to undefined functions

    A shallow embedding of [src/DeleteUndefined.cpp], the LLVM function pass
    that removes every call to a function without a body (allow-listed names
    apart) and replaces the call's result by zero or by a load from a per-type
    nondeterministic global that is made symbolic at the start of [main].

    The LLVM objects the pass works on are modelled as far as the pass reads
    or writes them: types, constants, instructions, basic blocks, functions,
    global variables and the module.  Pointers to objects become identities:
    a function is identified by its name (the key of the module's symbol
    table), a global variable by its position in the module's list of globals
    (globals are only ever appended), an instruction by a number handed out by
    the module's identity supply.  The build modelled is one with assertions
    enabled. *)

From Stdlib Require Import NArith.
From stdpp Require Import gmap strings list.

Local Open Scope string_scope.
Local Open Scope list_scope.
Local Open Scope nat_scope.
Local Set Warnings "-clear-no-such-hyp".

(** ** Types *)

(** [llvm::Type], as far as the pass distinguishes types: the result type of a
    call (void, sized or not) and the prototype of the make-symbolic hook. *)
#[warnings="-register-all"]
Inductive Ty :=
| VoidTy
| IntegerTy (bits : N)
| PointerTy (pointee : Ty)
| ArrayTy (n : N) (elt : Ty)
| OpaqueStructTy (name : string)
| FunctionTy (ret : Ty) (params : list Ty).

Section Ty_ind_nested.
Variable P : Ty → Prop.
Hypothesis HVoid : P VoidTy.
Hypothesis HInt : ∀ bits, P (IntegerTy bits).
Hypothesis HPtr : ∀ t, P t → P (PointerTy t).
Hypothesis HArr : ∀ n t, P t → P (ArrayTy n t).
Hypothesis HOpaque : ∀ name, P (OpaqueStructTy name).
Hypothesis HFun : ∀ r ps, P r → Forall P ps → P (FunctionTy r ps).

Fixpoint Ty_ind_nested (t : Ty) : P t :=
    match t with
    | VoidTy => HVoid
    | IntegerTy b => HInt b
    | PointerTy t' => HPtr t' (Ty_ind_nested t')
    | ArrayTy n t' => HArr n t' (Ty_ind_nested t')
    | OpaqueStructTy s => HOpaque s
    | FunctionTy r ps =>
        HFun r ps (Ty_ind_nested r)
          ((fix go (l : list Ty) : Forall P l :=
              match l with
              | [] => @List.Forall_nil _ P
              | x :: l' => @List.Forall_cons _ P x l' (Ty_ind_nested x) (go l')
              end) ps)
    end.
End Ty_ind_nested.

Fixpoint Ty_to_tree (t : Ty) : gen_tree (N + string) :=
  match t with
  | VoidTy => GenNode 0 []
  | IntegerTy b => GenNode 1 [GenLeaf (inl b)]
  | PointerTy t' => GenNode 2 [Ty_to_tree t']
  | ArrayTy n t' => GenNode 3 [GenLeaf (inl n); Ty_to_tree t']
  | OpaqueStructTy s => GenNode 4 [GenLeaf (inr s)]
  | FunctionTy r ps => GenNode 5 (Ty_to_tree r :: map Ty_to_tree ps)
  end.

Fixpoint tree_to_Ty (t : gen_tree (N + string)) : option Ty :=
  match t with
  | GenNode 0 [] => Some VoidTy
  | GenNode 1 [GenLeaf (inl b)] => Some (IntegerTy b)
  | GenNode 2 [t'] => PointerTy <$> tree_to_Ty t'
  | GenNode 3 [GenLeaf (inl n); t'] => ArrayTy n <$> tree_to_Ty t'
  | GenNode 4 [GenLeaf (inr s)] => Some (OpaqueStructTy s)
  | GenNode 5 (r :: ps) =>
      match tree_to_Ty r with
      | Some r' =>
          FunctionTy r' <$>
            (fix go (l : list (gen_tree (N + string))) : option (list Ty) :=
               match l with
               | [] => Some []
               | x :: l' =>
                   match tree_to_Ty x, go l' with
                   | Some x', Some l'' => Some (x' :: l'')
                   | _, _ => None
                   end
               end) ps
      | None => None
      end
  | _ => None
  end.

Lemma tree_to_Ty_to_tree (t : Ty) : tree_to_Ty (Ty_to_tree t) = Some t.
Proof.
  induction t as [| b | t IH | n t IH | s | r ps IHr IHps] using Ty_ind_nested;
    simpl; try done.
  - by rewrite IH.
  - by rewrite IH.
  - rewrite IHr. simpl.
    induction IHps as [| x l Hx _ IHl]; simpl; [done |].
    rewrite Hx. simpl in IHl.
    destruct ((fix go (l0 : list (gen_tree (N + string))) : option (list Ty) :=
                 match l0 with
                 | [] => Some []
                 | x0 :: l' =>
                     match tree_to_Ty x0, go l' with
                     | Some x', Some l'' => Some (x' :: l'')
                     | _, _ => None
                     end
                 end) (map Ty_to_tree l)) as [l'' |]; simpl in *; congruence.
Qed.

Lemma Ty_to_tree_inj (a b : Ty) : Ty_to_tree a = Ty_to_tree b → a = b.
Proof.
  intros H. apply (inj Some).
  by rewrite <- (tree_to_Ty_to_tree a), H, tree_to_Ty_to_tree.
Qed.

#[global] Instance Ty_eq_dec : EqDecision Ty.
Proof.
  intros a b. destruct (decide (Ty_to_tree a = Ty_to_tree b)) as [H | H].
  - left. by apply Ty_to_tree_inj.
  - right. intros ->. by apply H.
Defined.

#[global] Instance Ty_countable : Countable Ty :=
  inj_countable Ty_to_tree tree_to_Ty tree_to_Ty_to_tree.

Definition isVoidTy (t : Ty) : bool :=
  match t with VoidTy => true | _ => false end.

(** [Type::isSized]: integers and pointers are sized, an array is sized when
    its element type is, void, opaque structures and function types are not. *)
Fixpoint isSized (t : Ty) : bool :=
  match t with
  | IntegerTy _ | PointerTy _ => true
  | ArrayTy _ elt => isSized elt
  | VoidTy | OpaqueStructTy _ | FunctionTy _ _ => false
  end.

Definition Int8PtrTy : Ty := PointerTy (IntegerTy 8).

(** ** Values, instructions, functions, the module *)

Inductive Constant :=
| CFunction (name : string)
| CGlobalVariable (idx : nat)
| CNull (t : Ty)
| CInt (t : Ty) (n : N)
| CDataString (s : string)
| CPointerCast (c : Constant) (t : Ty).

Inductive Value :=
| VConst (c : Constant)
| VInstr (id : nat)
| VArgument (n : nat)
| VInlineAsm (asm : string).

Inductive InstKind :=
| Call (called : Value) (args : list Value)
| Load (ptr : Value)
| PointerCast (v : Value)
| Other (opcode : string) (operands : list Value).

Record Instruction := {
  i_id : nat;
  i_type : Ty;
  i_kind : InstKind;
  i_debugloc : option (N * N)
}.

Abbreviation BasicBlock := (list Instruction).

Record Function := {
  f_type : Ty;
  f_subprogram : option N;
  f_blocks : list BasicBlock
}.

Inductive Linkage := ExternalLinkage | PrivateLinkage.

Record GlobalVariable := {
  g_type : Ty;
  g_constant : bool;
  g_linkage : Linkage;
  g_init : Constant;
  g_name : string
}.

Record DataLayout := {
  getPointerSizeInBits : N;
  getTypeAllocSize : Ty → N
}.

Record Module := {
  m_datalayout : DataLayout;
  m_functions : gmap string Function;
  m_globals : list GlobalVariable;
  m_next_id : nat
}.

#[global] Instance Constant_eq_dec : EqDecision Constant.
Proof. solve_decision. Defined.
#[global] Instance Value_eq_dec : EqDecision Value.
Proof. solve_decision. Defined.
#[global] Instance InstKind_eq_dec : EqDecision InstKind.
Proof. solve_decision. Defined.
#[global] Instance Instruction_eq_dec : EqDecision Instruction.
Proof. solve_decision. Defined.

(** ** The pass object, the process-wide state, the monad *)

(** The fields of [class DeleteUndefined]. *)
Record DeleteUndefined := {
  _vms : option string;
  _size_t_Ty : option Ty;
  _nosym : bool;
  added_globals : gmap Ty nat
}.

(** What outlives a pass object: the function-local [static] set
    [removed_calls] of [runOnFunction] and the stream [errs()], a list of the
    lines written so far. *)
Record Statics := {
  removed_calls : gset string;
  errs : list string
}.

Record State := {
  st_pass : DeleteUndefined;
  st_module : Module;
  st_static : Statics
}.

Inductive outcome (A : Type) :=
| Done (a : A)
| AssertionFailed (msg : string)
| UndefinedBehaviour (what : string).
Arguments Done {A} a.
Arguments AssertionFailed {A} msg.
Arguments UndefinedBehaviour {A} what.

Definition Pass (A : Type) : Type := State → outcome (A * State).

Definition ret {A} (a : A) : Pass A := fun s => Done (a, s).

Definition bind {A B} (m : Pass A) (k : A → Pass B) : Pass B :=
  fun s =>
    match m s with
    | Done (a, s') => k a s'
    | AssertionFailed msg => AssertionFailed msg
    | UndefinedBehaviour what => UndefinedBehaviour what
    end.

Notation "'let*' x := m 'in' k" := (bind m (fun x => k))
  (at level 10, x pattern, m at level 100, k at level 200).
Notation "m ;;; k" := (bind m (fun _ => k))
  (at level 100, k at level 200, right associativity).

Definition gets {A} (f : State → A) : Pass A := fun s => Done (f s, s).
Definition modify (f : State → State) : Pass unit := fun s => Done (tt, f s).
Definition assert (b : bool) (msg : string) : Pass unit :=
  fun s => if b then Done (tt, s) else AssertionFailed msg.
Definition undefined {A} (what : string) : Pass A :=
  fun _ => UndefinedBehaviour what.

Definition set_pass (f : DeleteUndefined → DeleteUndefined) (s : State) : State :=
  {| st_pass := f (st_pass s); st_module := st_module s; st_static := st_static s |}.
Definition set_module (f : Module → Module) (s : State) : State :=
  {| st_pass := st_pass s; st_module := f (st_module s); st_static := st_static s |}.
Definition set_static (f : Statics → Statics) (s : State) : State :=
  {| st_pass := st_pass s; st_module := st_module s; st_static := f (st_static s) |}.

Definition set_functions (f : gmap string Function → gmap string Function)
    (m : Module) : Module :=
  {| m_datalayout := m_datalayout m; m_functions := f (m_functions m);
     m_globals := m_globals m; m_next_id := m_next_id m |}.
Definition set_blocks (f : list BasicBlock → list BasicBlock) (fn : Function)
    : Function :=
  {| f_type := f_type fn; f_subprogram := f_subprogram fn;
     f_blocks := f (f_blocks fn) |}.

(** The two constructors: [DeleteUndefined()] and [DeleteUndefinedNoSym()]
    (through the protected [DeleteUndefined(char)]). *)
Definition new_DeleteUndefined : DeleteUndefined :=
  {| _vms := None; _size_t_Ty := None; _nosym := false; added_globals := ∅ |}.
Definition new_DeleteUndefinedNoSym : DeleteUndefined :=
  {| _vms := None; _size_t_Ty := None; _nosym := true; added_globals := ∅ |}.

(** ** Primitives of the host representation used by the pass *)

Definition insts (fn : Function) : list Instruction := mjoin (f_blocks fn).

Definition function_insts (m : Module) (F : string) : list Instruction :=
  match m_functions m !! F with Some fn => insts fn | None => [] end.

(** [new GlobalVariable]: the variable is appended to the module's list; its
    position is its identity. *)
Definition m_add_global (g : GlobalVariable) (m : Module) : Module :=
  {| m_datalayout := m_datalayout m; m_functions := m_functions m;
     m_globals := m_globals m ++ [g]; m_next_id := m_next_id m |}.

Definition new_GlobalVariable (g : GlobalVariable) : Pass nat :=
  let* idx := gets (λ s, length (m_globals (st_module s))) in
  modify (set_module (m_add_global g)) ;;;
  ret idx.

(** A newly created instruction is a new object: it takes the next identity. *)
Definition m_alloc (m : Module) : Module :=
  {| m_datalayout := m_datalayout m; m_functions := m_functions m;
     m_globals := m_globals m; m_next_id := S (m_next_id m) |}.

Definition new_inst_id : Pass nat :=
  let* id := gets (λ s, m_next_id (st_module s)) in
  modify (set_module m_alloc) ;;;
  ret id.

(** [Module::getOrInsertFunction]: the function of that name when it has the
    requested prototype, a cast of it when it has another one, and a new
    declaration when there is none. *)
Definition m_declare (name : string) (ty : Ty) (m : Module) : Module :=
  set_functions
    (insert name {| f_type := ty; f_subprogram := None; f_blocks := [] |}) m.

Definition getOrInsertFunction (name : string) (ty : Ty) : Pass Constant :=
  let* found := gets (λ s, m_functions (st_module s) !! name) in
  match found with
  | None => modify (set_module (m_declare name ty)) ;;; ret (CFunction name)
  | Some fn =>
      if decide (f_type fn = ty) then ret (CFunction name)
      else ret (CPointerCast (CFunction name) (PointerTy ty))
  end.

(** [new->insertBefore(P)], [P] being the instruction of identity [id]. *)
Fixpoint insert_before (new : Instruction) (id : nat) (b : BasicBlock)
    : BasicBlock :=
  match b with
  | [] => []
  | i :: b' =>
      if decide (i_id i = id) then new :: i :: insert_before new id b'
      else i :: insert_before new id b'
  end.

Definition f_insert (new : Instruction) (id : nat) (fn : Function) : Function :=
  set_blocks (λ bs : list BasicBlock, insert_before new id <$> bs) fn.

Definition m_insert (F : string) (new : Instruction) (id : nat) (m : Module)
    : Module :=
  set_functions (alter (f_insert new id) F) m.

Definition insertBefore (F : string) (new : Instruction) (id : nat) : Pass unit :=
  modify (set_module (m_insert F new id)).

(** [I->eraseFromParent()], [I] being the instruction of identity [id]. *)
Definition erase (id : nat) (b : BasicBlock) : BasicBlock :=
  filter (λ i, i_id i ≠ id) b.

Definition f_erase (id : nat) (fn : Function) : Function :=
  set_blocks (λ bs : list BasicBlock, erase id <$> bs) fn.

Definition m_erase (F : string) (id : nat) (m : Module) : Module :=
  set_functions (alter (f_erase id) F) m.

Definition eraseFromParent (F : string) (id : nat) : Pass unit :=
  modify (set_module (m_erase F id)).

(** [I->replaceAllUsesWith(V)]: every operand that is the result of [I]
    becomes [V], wherever the use is. *)
Definition subst_value (id : nat) (new : Value) (v : Value) : Value :=
  match v with
  | VInstr id' => if decide (id' = id) then new else v
  | _ => v
  end.

Definition subst_kind (id : nat) (new : Value) (k : InstKind) : InstKind :=
  match k with
  | Call called args =>
      Call (subst_value id new called) (subst_value id new <$> args)
  | Load ptr => Load (subst_value id new ptr)
  | PointerCast v => PointerCast (subst_value id new v)
  | Other opcode operands => Other opcode (subst_value id new <$> operands)
  end.

Definition subst_inst (id : nat) (new : Value) (i : Instruction) : Instruction :=
  {| i_id := i_id i; i_type := i_type i;
     i_kind := subst_kind id new (i_kind i); i_debugloc := i_debugloc i |}.

Definition b_rauw (id : nat) (new : Value) (b : BasicBlock) : BasicBlock :=
  subst_inst id new <$> b.

Definition f_rauw (id : nat) (new : Value) (fn : Function) : Function :=
  set_blocks (λ bs : list BasicBlock, b_rauw id new <$> bs) fn.

Definition m_rauw (id : nat) (new : Value) (m : Module) : Module :=
  set_functions (λ fns : gmap string Function, f_rauw id new <$> fns) m.

Definition replaceAllUsesWith (id : nat) (new : Value) : Pass unit :=
  modify (set_module (m_rauw id new)).

(** ** The pass *)

(** [array_match]: a linear scan of a null-terminated array of names. *)
Fixpoint array_match (name : string) (array : list string) : bool :=
  match array with
  | [] => false
  | curr :: rest => if String.eqb name curr then true else array_match name rest
  end.

Definition leave_calls : list string :=
  [ "__assert_fail"; "abort"; "klee_make_symbolic"; "klee_assume";
    "klee_abort"; "klee_silent_exit"; "klee_report_error";
    "klee_warning_once"; "exit"; "_exit"; "malloc"; "calloc"; "realloc";
    "free"; "memset"; "memcmp"; "memcpy"; "memmove"; "kzalloc";
    "__errno_location" ].

(** [DeleteUndefined::get_size_t]. *)
Definition get_size_t : Pass Ty :=
  let* cached := gets (λ s, _size_t_Ty (st_pass s)) in
  match cached with
  | Some t => ret t
  | None =>
      let* bits := gets (λ s, getPointerSizeInBits (m_datalayout (st_module s))) in
      let t := if (32 <? bits)%N then IntegerTy 64 else IntegerTy 32 in
      modify (set_pass (λ p,
        {| _vms := _vms p; _size_t_Ty := Some t; _nosym := _nosym p;
           added_globals := added_globals p |})) ;;;
      ret t
  end.

(** [DeleteUndefined::get_verifier_make_symbolic]; [cast<Function>] asserts
    that what [getOrInsertFunction] returned is a function. *)
Definition get_verifier_make_symbolic : Pass string :=
  let* cached := gets (λ s, _vms (st_pass s)) in
  match cached with
  | Some f => ret f
  | None =>
      let* size_t := get_size_t in
      let* C := getOrInsertFunction "__VERIFIER_make_symbolic"
                  (FunctionTy VoidTy [Int8PtrTy; size_t; Int8PtrTy]) in
      match C with
      | CFunction f =>
          modify (set_pass (λ p,
            {| _vms := Some f; _size_t_Ty := _size_t_Ty p; _nosym := _nosym p;
               added_globals := added_globals p |})) ;;;
          ret f
      | _ => λ _, AssertionFailed "cast<Function>(C)"
      end
  end.

(** [CallAddMetadata]: the debug location given to the injected call, the
    start of the subprogram of the function that holds [I]. *)
Definition CallAddMetadata (parent : Function) : option (N * N) :=
  match f_subprogram parent with
  | Some line => Some (line, 0%N)
  | None => None
  end.

(** [DeleteUndefined::getGlobalNondet].  The debug location is attached to the
    call after its insertion in the source; the call being a new object, the
    model builds it with the location. *)
Definition getGlobalNondet (ty : Ty) : Pass nat :=
  let* it := gets (λ s, added_globals (st_pass s) !! ty) in
  match it with
  | Some G => ret G
  | None =>
      let* G := new_GlobalVariable
                  {| g_type := ty; g_constant := false;
                     g_linkage := PrivateLinkage; g_init := CNull ty;
                     g_name := "nondet_gl_undef" |} in
      modify (set_pass (λ p,
        {| _vms := _vms p; _size_t_Ty := _size_t_Ty p; _nosym := _nosym p;
           added_globals := <[ty := G]> (added_globals p) |})) ;;;
      let* vms := get_verifier_make_symbolic in
      let* CastI_id := new_inst_id in
      let CastI := {| i_id := CastI_id; i_type := Int8PtrTy;
                      i_kind := PointerCast (VConst (CGlobalVariable G));
                      i_debugloc := None |} in
      let* size_t := get_size_t in
      let* size := gets (λ s, getTypeAllocSize (m_datalayout (st_module s)) ty) in
      let* nameG := new_GlobalVariable
                      {| g_type := ArrayTy 7 (IntegerTy 8); g_constant := true;
                         g_linkage := PrivateLinkage;
                         g_init := CDataString "nondet"; g_name := "" |} in
      let args := [ VInstr CastI_id; VConst (CInt size_t size);
                    VConst (CPointerCast (CGlobalVariable nameG) Int8PtrTy) ] in
      let* CI_id := new_inst_id in
      let* main := gets (λ s, m_functions (st_module s) !! "main") in
      match main with
      | None => λ _, AssertionFailed "main && Do not have main"
      | Some main_fn =>
          match f_blocks main_fn with
          | [] => undefined "front() of an empty list of basic blocks"
          | [] :: _ => undefined "*(block.begin()) of an empty basic block"
          | (I1 :: _) :: _ =>
              let CI := {| i_id := CI_id; i_type := VoidTy;
                           i_kind := Call (VConst (CFunction vms)) args;
                           i_debugloc := CallAddMetadata main_fn |} in
              insertBefore "main" CastI (i_id I1) ;;;
              insertBefore "main" CI (i_id I1) ;;;
              ret G
          end
      end
  end.

(** [DeleteUndefined::replaceCall]; [F] is the function that holds [CI]. *)
Definition replaceCall (F : string) (CI : Instruction) : Pass unit :=
  let* name := new_GlobalVariable
                 {| g_type := ArrayTy 7 (IntegerTy 8); g_constant := true;
                    g_linkage := PrivateLinkage;
                    g_init := CDataString "nondet"; g_name := "" |} in
  let ty := i_type CI in
  assert (negb (isVoidTy ty)) "!Ty->isVoidTy()" ;;;
  assert (isSized ty) "Ty->isSized()" ;;;
  let* G := getGlobalNondet ty in
  let* LI_id := new_inst_id in
  let LI := {| i_id := LI_id; i_type := ty;
               i_kind := Load (VConst (CGlobalVariable G));
               i_debugloc := None |} in
  insertBefore F LI (i_id CI) ;;;
  replaceAllUsesWith (i_id CI) (VInstr LI_id).

(** [Value::stripPointerCasts], on the values of this model: the cast
    expressions around a constant are peeled off. *)
Fixpoint stripPointerCasts_const (c : Constant) : Constant :=
  match c with
  | CPointerCast c' _ => stripPointerCasts_const c'
  | _ => c
  end.

Definition stripPointerCasts (v : Value) : Value :=
  match v with
  | VConst c => VConst (stripPointerCasts_const c)
  | _ => v
  end.

Definition isInlineAsm (called : Value) : bool :=
  match called with VInlineAsm _ => true | _ => false end.

(** [dyn_cast<Function>]: the name and the function, when the value is a
    function of the module. *)
Definition dyn_cast_Function (m : Module) (v : Value) : option (string * Function) :=
  match v with
  | VConst (CFunction name) => (λ fn, (name, fn)) <$> m_functions m !! name
  | _ => None
  end.

(** [Function::isIntrinsic]: the name starts with [llvm.]. *)
Definition isIntrinsic (name : string) : bool := String.prefix "llvm." name.
Definition hasName (name : string) : bool := negb (String.eqb name "").
Definition isDeclaration (fn : Function) : bool :=
  match f_blocks fn with [] => true | _ => false end.

(** The guards of the loop body of [runOnFunction] (lines 255 to 277), which
    decide whether the instruction is a call to delete; [NoName] is the
    failure of [assert(callee->hasName())]. *)
Inductive Classification :=
| Skip
| Eligible (callee : string)
| NoName.

Definition classify (m : Module) (ins : Instruction) : Classification :=
  match i_kind ins with
  | Call called _ =>
      if isInlineAsm called then Skip
      else
        match dyn_cast_Function m (stripPointerCasts called) with
        | None => Skip
        | Some (name, callee) =>
            if isIntrinsic name then Skip
            else if negb (hasName name) then NoName
            else if String.eqb name "nondet_int" || String.eqb name "klee_int"
                    || array_match name leave_calls then Skip
            else if String.prefix "__VERIFIER_" name then Skip
            else if isDeclaration callee then Eligible name
            else Skip
        end
  | _ => Skip
  end.

(** The line written for a callee when it is first removed. *)
Definition diagnostic (name : string) (void : bool) (nosym : bool) : string :=
  ("Prepare: removed calls to '" ++ name ++ "' (function is undefined"
   ++ (if void then ")"
       else if nosym then ", retval set to 0)" else ", retval made symbolic)"))%string.

Definition report (name : string) (CI : Instruction) : Pass unit :=
  let* removed := gets (λ s, removed_calls (st_static s)) in
  if decide (name ∈ removed) then ret tt
  else
    let* nosym := gets (λ s, _nosym (st_pass s)) in
    modify (set_static (λ st,
      {| removed_calls := {[ name ]} ∪ removed_calls st;
         errs := errs st ++ [diagnostic name (isVoidTy (i_type CI)) nosym] |})).

Definition find_inst (m : Module) (F : string) (id : nat) : option Instruction :=
  snd <$> list_find (λ i, i_id i = id) (function_insts m F).

(** One turn of the loop of [runOnFunction], on the instruction [id] of [F];
    the result tells whether the call was deleted. *)
Definition runOnInstruction (F : string) (id : nat) : Pass bool :=
  let* m := gets st_module in
  match find_inst m F id with
  | None => ret false
  | Some CI =>
      match classify m CI with
      | Skip => ret false
      | NoName => λ _, AssertionFailed "callee->hasName()"
      | Eligible name =>
          report name CI ;;;
          (if isVoidTy (i_type CI) then ret tt
           else
             let* nosym := gets (λ s, _nosym (st_pass s)) in
             if nosym
             then replaceAllUsesWith (i_id CI) (VConst (CNull (i_type CI)))
             else replaceCall F CI) ;;;
          eraseFromParent F (i_id CI) ;;;
          ret true
      end
  end.

Fixpoint run_loop (F : string) (ids : list nat) (modified : bool) : Pass bool :=
  match ids with
  | [] => ret modified
  | id :: rest =>
      let* changed := runOnInstruction F id in
      run_loop F rest (changed || modified)
  end.

(** [DeleteUndefined::runOnFunction].  The iterator is advanced before the
    instruction is handled, new instructions are only ever linked in front of
    the instruction being handled, and that instruction is the only one
    unlinked: the loop visits the instructions that [F] has when it starts,
    in order. *)
Definition runOnFunction (F : string) : Pass bool :=
  let* m := gets st_module in
  run_loop F (i_id <$> function_insts m F) false.

(** The pass manager: [runOnFunction] on the functions, in the given order;
    the result lists what each call returned. *)
Fixpoint runOnFunctions (order : list string) : Pass (list bool) :=
  match order with
  | [] => ret []
  | F :: rest =>
      let* b := runOnFunction F in
      let* bs := runOnFunctions rest in
      ret (b :: bs)
  end.

(** * The vocabulary of the statements *)

Definition ids (l : list Instruction) : list nat := i_id <$> l.

Definition hook : string := "__VERIFIER_make_symbolic".

Definition callee_name (ins : Instruction) : option string :=
  match i_kind ins with
  | Call called _ =>
      match stripPointerCasts called with
      | VConst (CFunction name) => Some name
      | _ => None
      end
  | _ => None
  end.

Definition declared (m : Module) (name : string) : option bool :=
  isDeclaration <$> m_functions m !! name.

Definition allow_listed (name : string) : bool :=
  String.eqb name "nondet_int" || String.eqb name "klee_int"
  || array_match name leave_calls.

Definition classify_name (name : string) (decl : bool) : Classification :=
  if isIntrinsic name then Skip
  else if negb (hasName name) then NoName
  else if allow_listed name then Skip
  else if String.prefix "__VERIFIER_" name then Skip
  else if decl then Eligible name
  else Skip.

(** What a deleted call's result is replaced by: a null constant or the
    result of a load. *)
Definition substitute (v : Value) : Prop :=
  (∃ t, v = VConst (CNull t)) ∨ (∃ y, v = VInstr y).

Definition is_load (i : Instruction) : Prop :=
  match i_kind i with Load (VConst (CGlobalVariable _)) => True | _ => False end.

Definition is_init (i : Instruction) : Prop :=
  match i_kind i with
  | PointerCast (VConst (CGlobalVariable _)) => True
  | Call (VConst (CFunction f)) _ => f = hook
  | _ => False
  end.

Definition wf (m : Module) : Prop :=
  ∀ F, NoDup (ids (function_insts m F))
       ∧ ∀ i, i ∈ function_insts m F → i_id i < m_next_id m.

Definition eligible_at (m : Module) (F : string) (x : nat) : Prop :=
  ∀ i, i ∈ function_insts m F → i_id i = x → ∃ name, classify m i = Eligible name.

Definition fresh_inst (N : nat) (m : Module) (new : Instruction) : Prop :=
  N ≤ i_id new ∧ i_id new < m_next_id m
  ∧ ∀ G, i_id new ∉ ids (function_insts m G).

(** What the pass does to the module before it erases a call ... *)
Inductive build (N : nat) : Module → Module → Prop :=
| build_global g m : build N m (m_add_global g m)
| build_alloc m : build N m (m_alloc m)
| build_declare ty m :
    m_functions m !! hook = None → build N m (m_declare hook ty m)
| build_load F new x m :
    fresh_inst N m new → is_load new → eligible_at m F x →
    build N m (m_insert F new x m)
| build_init new x l1 ix l2 m :
    fresh_inst N m new → is_init new →
    function_insts m "main" = l1 ++ ix :: l2 → i_id ix = x →
    Forall (λ i, N ≤ i_id i ∧ is_init i) l1 →
    build N m (m_insert "main" new x m)
| build_rauw x v F CI name m :
    substitute v → CI ∈ function_insts m F → i_id CI = x →
    classify m CI = Eligible name →
    build N m (m_rauw x v m).

(** ... and the erasure. *)
Inductive edit (N : nat) : Module → Module → Prop :=
| edit_build m m' : build N m m' → edit N m m'
| edit_erase F x m : eligible_at m F x → edit N m (m_erase F x m).

Definition evolved (m : Module) (i0 i : Instruction) : Prop :=
  i = i0
  ∨ ∃ x v F CI name,
      substitute v ∧ CI ∈ function_insts m F ∧ i_id CI = x
      ∧ classify m CI = Eligible name ∧ i = subst_inst x v i0.

Definition pass_ok (p : DeleteUndefined) : Prop :=
  _vms p = None ∨ _vms p = Some hook.

(** What a part of the pass leaves of the state it starts in. *)
Record frame (N : nat) (s s' : State) : Prop := {
  frame_builds : rtc (build N) (st_module s) (st_module s');
  frame_pass_ok : pass_ok (st_pass s) → pass_ok (st_pass s');
  frame_nosym : _nosym (st_pass s') = _nosym (st_pass s);
  frame_static : st_static s' = st_static s
}.

Definition nondet_global (ty : Ty) : GlobalVariable :=
  {| g_type := ty; g_constant := false; g_linkage := PrivateLinkage;
     g_init := CNull ty; g_name := "nondet_gl_undef" |}.

Definition name_global : GlobalVariable :=
  {| g_type := ArrayTy 7 (IntegerTy 8); g_constant := true;
     g_linkage := PrivateLinkage; g_init := CDataString "nondet";
     g_name := "" |}.

Definition cast_inst (id G : nat) : Instruction :=
  {| i_id := id; i_type := Int8PtrTy;
     i_kind := PointerCast (VConst (CGlobalVariable G)); i_debugloc := None |}.

Definition init_call (vms : string) (id cast : nat) (size_t : Ty) (size : N)
    (nameG : nat) (loc : option (N * N)) : Instruction :=
  {| i_id := id; i_type := VoidTy;
     i_kind := Call (VConst (CFunction vms))
                 [ VInstr cast; VConst (CInt size_t size);
                   VConst (CPointerCast (CGlobalVariable nameG) Int8PtrTy) ];
     i_debugloc := loc |}.

Definition covers (order : list string) (m : Module) : Prop :=
  ∀ F, function_insts m F ≠ [] → F ∈ order.

Definition skip_inv (Q : string → nat → Prop) (m : Module) : Prop :=
  ∀ G i, i ∈ function_insts m G → Q G (i_id i) → classify m i = Skip.

(** The functions handled so far, and what of [F] the loop has gone past. *)
Definition past (handled : string → Prop) (F : string) (todo : list nat)
    (G : string) (x : nat) : Prop :=
  handled G ∨ (G = F ∧ x ∉ todo).

Record run_post (s s' : State) : Prop := {
  run_edits : rtc (edit (m_next_id (st_module s))) (st_module s) (st_module s');
  run_wf : wf (st_module s');
  run_pass_ok : pass_ok (st_pass s');
  run_nosym : _nosym (st_pass s') = _nosym (st_pass s)
}.

Definition reported (name : string) (CI : Instruction) (s : State) : State :=
  if decide (name ∈ removed_calls (st_static s)) then s
  else set_static (λ st,
         {| removed_calls := {[ name ]} ∪ removed_calls st;
            errs := errs st ++ [diagnostic name (isVoidTy (i_type CI))
                                  (_nosym (st_pass s))] |}) s.

Definition load_inst (id : nat) (ty : Ty) (G : nat) : Instruction :=
  {| i_id := id; i_type := ty; i_kind := Load (VConst (CGlobalVariable G));
     i_debugloc := None |}.

Definition operands (i : Instruction) : list Value :=
  match i_kind i with
  | Call called args => called :: args
  | Load ptr => [ptr]
  | PointerCast v => [v]
  | Other _ ops => ops
  end.

Definition uses (x : nat) (i : Instruction) : Prop := VInstr x ∈ operands i.

Record zero_rel (s s' : State) : Prop := {
  zero_pass : st_pass s' = st_pass s;
  zero_globals : m_globals (st_module s') = m_globals (st_module s);
  zero_next : m_next_id (st_module s') = m_next_id (st_module s);
  zero_dom : dom (m_functions (st_module s')) = dom (m_functions (st_module s));
  zero_insts : ∀ G i, i ∈ function_insts (st_module s') G →
    ∃ i0, i0 ∈ function_insts (st_module s) G ∧ i_id i = i_id i0
          ∧ i_type i = i_type i0 ∧ callee_name i = callee_name i0
}.

Definition nondet_globals (m : Module) : list GlobalVariable :=
  filter (λ g, g_name g = "nondet_gl_undef") (m_globals m).

Definition name_strings (m : Module) : list GlobalVariable :=
  filter (λ g, g_init g = CDataString "nondet") (m_globals m).




Definition cast_failed : string := "cast<Function>(C)".

Record static_rel (s s' : State) : Prop := {
  static_removed : removed_calls (st_static s) ⊆ removed_calls (st_static s');
  static_errs : errs (st_static s) `prefix_of` errs (st_static s');
  static_count :
    length (errs (st_static s')) + size (removed_calls (st_static s))
    = length (errs (st_static s)) + size (removed_calls (st_static s'))
}.

Definition with_pass (p : DeleteUndefined) (s : State) : State :=
  set_pass (λ _, p) s.

Definition injected_init (N : nat) (i : Instruction) : Prop :=
  N ≤ i_id i ∧ is_init i.

Definition inits_first (N : nat) (l : list Instruction) : Prop :=
  ∃ pre rest, l = pre ++ rest ∧ Forall (injected_init N) pre
              ∧ Forall (λ i, ¬ injected_init N i) rest.

Definition precedes (l : list Instruction) (c j : Instruction) : Prop :=
  ∃ l1 l2 l3, l = l1 ++ c :: l2 ++ j :: l3.






Definition wf_function (next : nat) (fn : Function) : Prop :=
  NoDup (ids (insts fn)) ∧ Forall (λ i, i_id i < next) (insts fn).

#[global] Instance wf_function_dec next fn : Decision (wf_function next fn).
Proof. unfold wf_function. apply _. Defined.

Definition i32 : Ty := IntegerTy 32.

Definition ex_datalayout : DataLayout :=
  {| getPointerSizeInBits := 64;
     getTypeAllocSize := λ t, match t with IntegerTy b => ((b + 7) / 8)%N | _ => 8%N end |}.

Definition inst (id : nat) (ty : Ty) (k : InstKind) : Instruction :=
  {| i_id := id; i_type := ty; i_kind := k; i_debugloc := None |}.

Definition declaration (ty : Ty) : Function :=
  {| f_type := ty; f_subprogram := None; f_blocks := [] |}.

Definition call_fn (id : nat) (ty : Ty) (callee : string) (args : list Value) :=
  inst id ty (Call (VConst (CFunction callee)) args).

(** [main] calls [bar], which has no body, and frees what it returned;
    [f] calls [foo] twice, [bar] and [log_undefined], none of which has a
    body. *)
Definition ex_main : Function :=
  {| f_type := FunctionTy i32 []; f_subprogram := Some 3%N;
     f_blocks := [[ call_fn 0 Int8PtrTy "bar" [VConst (CInt i32 0)];
                    call_fn 1 VoidTy "free" [VInstr 0];
                    inst 2 VoidTy (Other "ret" [VConst (CInt i32 0)]) ]] |}.

Definition ex_f : Function :=
  {| f_type := FunctionTy VoidTy []; f_subprogram := None;
     f_blocks := [[ call_fn 3 i32 "foo" [];
                    call_fn 4 Int8PtrTy "bar" [VInstr 3];
                    call_fn 5 VoidTy "log_undefined" [] ];
                  [ call_fn 6 i32 "foo" [];
                    inst 7 VoidTy (Other "ret" []) ]] |}.

Definition ex_functions : gmap string Function :=
  <["main" := ex_main]> (<["f" := ex_f]>
  (<["foo" := declaration (FunctionTy i32 [])]>
  (<["bar" := declaration (FunctionTy Int8PtrTy [i32])]>
  (<["log_undefined" := declaration (FunctionTy VoidTy [])]>
  (<["free" := declaration (FunctionTy VoidTy [Int8PtrTy])]> ∅))))).

Definition ex_module : Module :=
  {| m_datalayout := ex_datalayout; m_functions := ex_functions;
     m_globals := []; m_next_id := 8 |}.

Definition no_statics : Statics := {| removed_calls := ∅; errs := [] |}.

Definition ex_state (p : DeleteUndefined) : State :=
  {| st_pass := p; st_module := ex_module; st_static := no_statics |}.

Definition result {A} (o : outcome (A * State)) (default : A * State) : A * State :=
  match o with Done r => r | _ => default end.

Definition ex_order : list string := ["f"; "foo"; "main"].

Definition ex_run (p : DeleteUndefined) : list bool * State :=
  result (runOnFunctions ex_order (ex_state p)) ([], ex_state p).

Definition ex_symbolic : State := ex_state new_DeleteUndefined.
Definition ex_zero : State := ex_state new_DeleteUndefinedNoSym.

Definition bar_in_main : Instruction :=
  call_fn 0 Int8PtrTy "bar" [VConst (CInt i32 0)].
Definition foo_in_f : Instruction := call_fn 3 i32 "foo" [].
Definition log_in_f : Instruction := call_fn 5 VoidTy "log_undefined" [].

(** The state after the first loop turn on [f] under the Symbolic policy. *)
Definition ex_after_first : bool * State :=
  result (runOnInstruction "f" 3 ex_symbolic) (false, ex_symbolic).




(** A run of a first pass object on [f], then the run of a new pass object
    on [main]. *)
Definition ex_first_run : bool * State :=
  result (runOnFunction "f" ex_zero) (false, ex_zero).

Definition ex_second_run : bool * State :=
  result (runOnFunction "main"
            (with_pass new_DeleteUndefinedNoSym (snd ex_first_run)))
    (false, ex_zero).

(** The type that [get_size_t] answers in [s]. *)
Definition size_t_of (s : State) : Ty :=
  match _size_t_Ty (st_pass s) with
  | Some t => t
  | None =>
      if (32 <? getPointerSizeInBits (m_datalayout (st_module s)))%N
      then IntegerTy 64 else IntegerTy 32
  end.

(** The prototype that the pass asks for: no result, and a byte pointer, a
    [size_t] and a byte pointer as parameters. *)
Definition hook_type (size_t : Ty) : Ty :=
  FunctionTy VoidTy [Int8PtrTy; size_t; Int8PtrTy].

(** [c] under the pointer casts to [ts], the outermost first. *)
Fixpoint casts (ts : list Ty) (c : Constant) : Constant :=
  match ts with
  | [] => c
  | t :: ts' => CPointerCast (casts ts' c) t
  end.


(** What the pass never changes of a function: its type, its subprogram and
    the number of its basic blocks. *)
Definition signature (fn : Function) : Ty * option N * nat :=
  (f_type fn, f_subprogram fn, length (f_blocks fn)).

Definition signature_of (m : Module) (G : string) : option (Ty * option N * nat) :=
  signature <$> m_functions m !! G.

Record same_functions (m m' : Module) : Prop := {
  same_datalayout : m_datalayout m' = m_datalayout m;
  same_old : ∀ G, is_Some (m_functions m !! G) →
                  signature_of m' G = signature_of m G;
  same_new : ∀ G, m_functions m !! G = None →
                  m_functions m' !! G = None
                  ∨ (G = hook ∧ ∃ ty, signature_of m' G = Some (ty, None, 0))
}.







#[global] Instance Classification_eq_dec : EqDecision Classification.
Proof. solve_decision. Defined.



Definition pre_of (G : string) (pre : list Instruction) : list Instruction :=
  if decide (G = "main") then pre else [].

Definition inserted (ld : option Instruction) (x : nat) (l : list Instruction)
    : list Instruction :=
  match ld with Some LI => insert_before LI x l | None => l end.

Definition redirected (v : option Value) (x : nat) (l : list Instruction)
    : list Instruction :=
  match v with Some v => b_rauw x v l | None => l end.

(** The instructions of [G] after the loop turn that deletes the call [x] of
    [F]: [pre] is what was put at the head of [main], [ld] the load put before
    the call, [v] what the uses of the call are redirected to. *)
Definition turned (F : string) (x : nat) (pre : list Instruction)
    (ld : option Instruction) (v : option Value) (G : string)
    (l : list Instruction) : list Instruction :=
  redirected v x
    (if decide (G = F) then erase x (inserted ld x (pre_of G pre ++ l))
     else pre_of G pre ++ l).

(** The debug location that [CallAddMetadata] gives to a call put into
    [main]. *)
Definition entry_loc (m : Module) : option (N * N) :=
  match m_functions m !! "main" with
  | Some main_fn => CallAddMetadata main_fn
  | None => None
  end.

(** The four ways in which a call is deleted. *)
Inductive turn (s : State) (CI : Instruction) (s' : State) :
    list Instruction → option Instruction → option Value →
    list GlobalVariable → Prop :=
| turn_void :
    isVoidTy (i_type CI) = true → st_pass s' = st_pass s →
    m_next_id (st_module s') = m_next_id (st_module s) →
    turn s CI s' [] None None []
| turn_zero :
    isVoidTy (i_type CI) = false → _nosym (st_pass s) = true →
    st_pass s' = st_pass s →
    m_next_id (st_module s') = m_next_id (st_module s) →
    turn s CI s' [] None (Some (VConst (CNull (i_type CI)))) []
| turn_hit G0 :
    isVoidTy (i_type CI) = false → _nosym (st_pass s) = false →
    added_globals (st_pass s) !! i_type CI = Some G0 →
    st_pass s' = st_pass s →
    m_next_id (st_module s') = S (m_next_id (st_module s)) →
    let n := m_next_id (st_module s) in
    turn s CI s' [] (Some (load_inst n (i_type CI) G0)) (Some (VInstr n))
      [name_global]
| turn_miss size_t :
    isVoidTy (i_type CI) = false → _nosym (st_pass s) = false →
    added_globals (st_pass s) !! i_type CI = None →
    let n := m_next_id (st_module s) in
    let G0 := S (length (m_globals (st_module s))) in
    added_globals (st_pass s')
    = <[i_type CI := G0]> (added_globals (st_pass s)) →
    m_next_id (st_module s') = S (S (S n)) →
    turn s CI s'
      [cast_inst n G0;
       init_call hook (S n) n size_t
         (getTypeAllocSize (m_datalayout (st_module s)) (i_type CI)) (S G0)
         (entry_loc (st_module s))]
      (Some (load_inst (S (S n)) (i_type CI) G0)) (Some (VInstr (S (S n))))
      [name_global; nondet_global (i_type CI); name_global].







Definition redirect1 (v : option Value) (x : nat) (i : Instruction)
    : Instruction :=
  match v with Some w => subst_inst x w i | None => i end.



Record unused (s0 s : State) : Prop := {
  unused_post : run_post s0 s;
  unused_wf : wf (st_module s0);
  unused_deleted : ∀ F i0 name,
    i0 ∈ function_insts (st_module s0) F →
    classify (st_module s0) i0 = Eligible name →
    isVoidTy (i_type i0) = false →
    i_id i0 ∈ ids (function_insts (st_module s) F)
    ∨ ∀ G i, i ∈ function_insts (st_module s) G → ¬ uses (i_id i0) i
}.

(** [ex_module] with a hook of another prototype. *)
Definition ex_hooked : State :=
  {| st_pass := new_DeleteUndefined;
     st_module :=
       set_functions (insert hook (declaration (FunctionTy VoidTy []))) ex_module;
     st_static := no_statics |}.

(** A module whose [main] calls a function without a name, which has a
    body. *)
Definition ex_unnamed : State :=
  {| st_pass := new_DeleteUndefinedNoSym;
     st_module :=
       {| m_datalayout := ex_datalayout;
          m_functions :=
            <["main" := {| f_type := FunctionTy i32 []; f_subprogram := None;
                           f_blocks :=
                             [[ call_fn 0 VoidTy "" [];
                                inst 1 VoidTy
                                  (Other "ret" [VConst (CInt i32 0)]) ]] |}]>
            (<["" := {| f_type := FunctionTy VoidTy []; f_subprogram := None;
                        f_blocks := [[ inst 2 VoidTy (Other "ret" []) ]] |}]>
             ∅);
          m_globals := []; m_next_id := 3 |};
     st_static := no_statics |}.


(** * Properties *)

(** * Instruction lists *)

Section blocks.
Implicit Types (l b : list Instruction) (bs : list (list Instruction)).

Lemma elem_of_insert_before new x l j :
  j ∈ insert_before new x l ↔ j ∈ l ∨ (j = new ∧ x ∈ ids l).
Proof.
  induction l as [| i l IH]; simpl.
  - unfold ids. set_solver.
  - unfold ids in *. case_decide; set_solver.
Qed.

Lemma insert_before_notin new x l : x ∉ ids l → insert_before new x l = l.
Proof.
  induction l as [| i l IH]; simpl; [done |]. unfold ids in *. intros H.
  rewrite decide_False by set_solver. f_equal. apply IH. set_solver.
Qed.

Lemma insert_before_app new x l1 l2 :
  insert_before new x (l1 ++ l2)
  = insert_before new x l1 ++ insert_before new x l2.
Proof.
  induction l1 as [| i l1 IH]; simpl; [done |].
  case_decide; simpl; by rewrite IH.
Qed.

Lemma insert_before_join new x bs :
  mjoin (insert_before new x <$> bs) = insert_before new x (mjoin bs).
Proof.
  induction bs as [| b bs IH]; csimpl; [done |].
  by rewrite insert_before_app, IH.
Qed.

Lemma insert_before_here new x l1 i l2 :
  i_id i = x → x ∉ ids l1 → x ∉ ids l2 →
  insert_before new x (l1 ++ i :: l2) = l1 ++ new :: i :: l2.
Proof.
  intros Hi H1 H2. rewrite insert_before_app, insert_before_notin by done.
  simpl. rewrite decide_True by done. by rewrite insert_before_notin.
Qed.

Lemma ids_insert_before new x l j :
  j ∈ ids (insert_before new x l) → j = i_id new ∨ j ∈ ids l.
Proof.
  unfold ids. intros (i & -> & Hi)%list_elem_of_fmap.
  apply elem_of_insert_before in Hi as [Hi | [-> _]]; [right | by left].
  by apply list_elem_of_fmap_2.
Qed.

Lemma NoDup_insert_before new x l :
  NoDup (ids l) → i_id new ∉ ids l → NoDup (ids (insert_before new x l)).
Proof.
  unfold ids. induction l as [| i l IH]; simpl; [done |].
  intros [Hi Hl]%NoDup_cons Hnew. case_decide as Hx.
  - subst x. rewrite insert_before_notin by done. csimpl.
    apply NoDup_cons. split; [set_solver |]. by apply NoDup_cons.
  - csimpl. apply NoDup_cons. split.
    + intros [E | Hin]%ids_insert_before; [| done]. set_solver.
    + apply IH; [done | set_solver].
Qed.

Lemma erase_join x bs : mjoin (erase x <$> bs) = erase x (mjoin bs).
Proof.
  induction bs as [| b bs IH]; csimpl; [done |].
  unfold erase in *. by rewrite filter_app, IH.
Qed.

Lemma elem_of_erase x l j : j ∈ erase x l ↔ j ∈ l ∧ i_id j ≠ x.
Proof. unfold erase. rewrite list_elem_of_filter. tauto. Qed.

Lemma erase_notin x l : x ∉ ids l → erase x l = l.
Proof.
  unfold erase, ids. induction l as [| i l IH]; [done |]. intros H.
  rewrite filter_cons_True by set_solver. f_equal. apply IH. set_solver.
Qed.

Lemma ids_erase x l : x ∉ ids (erase x l).
Proof.
  unfold ids. intros (i & E & [_ Hi]%elem_of_erase)%list_elem_of_fmap. done.
Qed.

Lemma NoDup_erase x l : NoDup (ids l) → NoDup (ids (erase x l)).
Proof.
  unfold ids, erase. induction l as [| i l IH]; [done |].
  intros [Hi Hl]%NoDup_cons. destruct (decide (i_id i = x)).
  - rewrite filter_cons_False by naive_solver. auto.
  - rewrite filter_cons_True by done. simpl. apply NoDup_cons. split; [| auto].
    intros (j & E & [_ Hj]%list_elem_of_filter)%list_elem_of_fmap.
    apply Hi. rewrite E. by apply list_elem_of_fmap_2.
Qed.

Lemma rauw_join x v bs : mjoin (b_rauw x v <$> bs) = b_rauw x v (mjoin bs).
Proof.
  induction bs as [| b bs IH]; csimpl; [done |].
  unfold b_rauw in *. by rewrite fmap_app, IH.
Qed.

Lemma ids_rauw x v l : ids (b_rauw x v l) = ids l.
  Proof. unfold ids, b_rauw. rewrite <- list_fmap_compose. done. Qed.
End blocks.

(** * The instructions of a function after an edit of the module *)

Section module_ops.
Implicit Types (m : Module) (F G : string).

Lemma insts_f_insert new x fn :
  insts (f_insert new x fn) = insert_before new x (insts fn).
Proof. apply insert_before_join. Qed.

Lemma insts_f_erase x fn : insts (f_erase x fn) = erase x (insts fn).
Proof. apply erase_join. Qed.

Lemma insts_f_rauw x v fn : insts (f_rauw x v fn) = b_rauw x v (insts fn).
Proof. apply rauw_join. Qed.

Lemma function_insts_insert F new x m G :
  function_insts (m_insert F new x m) G
  = if decide (G = F) then insert_before new x (function_insts m G)
    else function_insts m G.
Proof.
  unfold function_insts, m_insert. simpl. case_decide as E.
  - subst G. rewrite lookup_alter_eq.
    destruct (m_functions m !! F); simpl; [apply insts_f_insert | done].
  - by rewrite lookup_alter_ne.
Qed.

Lemma function_insts_erase F x m G :
  function_insts (m_erase F x m) G
  = if decide (G = F) then erase x (function_insts m G)
    else function_insts m G.
Proof.
  unfold function_insts, m_erase. simpl. case_decide as E.
  - subst G. rewrite lookup_alter_eq.
    destruct (m_functions m !! F); simpl; [apply insts_f_erase | done].
  - by rewrite lookup_alter_ne.
Qed.

Lemma function_insts_rauw x v m G :
  function_insts (m_rauw x v m) G = b_rauw x v (function_insts m G).
Proof.
  unfold function_insts, m_rauw. simpl. rewrite lookup_fmap.
  destruct (m_functions m !! G); simpl; [apply insts_f_rauw | done].
Qed.

Lemma function_insts_declare name ty m G :
  m_functions m !! name = None →
  function_insts (m_declare name ty m) G = function_insts m G.
Proof.
  intros Hn. unfold function_insts, m_declare. simpl.
  destruct (decide (name = G)) as [-> | Hne].
  - by rewrite lookup_insert_eq, Hn.
  - by rewrite lookup_insert_ne.
Qed.

Lemma function_insts_add_global g m G :
  function_insts (m_add_global g m) G = function_insts m G.
Proof. done. Qed.

Lemma function_insts_alloc m G :
    function_insts (m_alloc m) G = function_insts m G.
  Proof. done. Qed.
End module_ops.

(** * Classification *)

Lemma classify_alt m ins :
  classify m ins =
  match callee_name ins with
  | Some name =>
      match declared m name with
      | Some decl => classify_name name decl
      | None => Skip
      end
  | None => Skip
  end.
Proof.
  unfold classify, callee_name, declared, classify_name, allow_listed.
  destruct (i_kind ins) as [called args | | |]; try done.
  destruct called as [c | | |]; simpl; try done.
  destruct (stripPointerCasts_const c); simpl; try done.
  destruct (m_functions m !! name); done.
Qed.

Lemma callee_name_subst x v i :
  substitute v → callee_name (subst_inst x v i) = callee_name i.
Proof.
  intros Hv. unfold callee_name, subst_inst. simpl.
  destruct (i_kind i) as [called args | | |]; simpl; try done.
  destruct called as [c | y | |]; simpl; try done.
  case_decide; [| done]. by destruct Hv as [[t ->] | [z ->]].
Qed.

Lemma classify_subst m x v i :
  substitute v → classify m (subst_inst x v i) = classify m i.
Proof. intros Hv. by rewrite !classify_alt, callee_name_subst. Qed.

Lemma classify_declared m m' i :
  (∀ n, declared m' n = declared m n) → classify m' i = classify m i.
Proof.
  intros H. rewrite !classify_alt. destruct (callee_name i); [| done].
  by rewrite H.
Qed.

Lemma classify_Eligible_name m i name :
  classify m i = Eligible name → callee_name i = Some name.
Proof.
  rewrite classify_alt. destruct (callee_name i) as [n |]; [| done].
  destruct (declared m n) as [d |]; [| done]. unfold classify_name.
  repeat case_match; naive_solver.
Qed.

Lemma isDeclaration_set_blocks f fn :
  (∀ bs, f bs = [] ↔ bs = []) →
  isDeclaration (set_blocks f fn) = isDeclaration fn.
Proof.
  intros Hf. unfold isDeclaration. simpl.
  destruct (f_blocks fn) as [| b bs] eqn:E.
  - by rewrite (proj2 (Hf []) eq_refl).
  - destruct (f (b :: bs)) eqn:E'; [| done]. by apply (proj1 (Hf _)) in E'.
Qed.

Lemma fmap_nil_iff {A B} (g : A → B) (l : list A) : g <$> l = [] ↔ l = [].
Proof. by destruct l. Qed.

Lemma declared_insert F new x m n : declared (m_insert F new x m) n = declared m n.
Proof.
  unfold declared, m_insert. simpl. destruct (decide (n = F)) as [-> | Hne].
  - rewrite lookup_alter_eq. destruct (m_functions m !! F); simpl; [| done].
    f_equal. apply isDeclaration_set_blocks. intros bs. apply fmap_nil_iff.
  - by rewrite lookup_alter_ne.
Qed.

Lemma declared_erase F x m n : declared (m_erase F x m) n = declared m n.
Proof.
  unfold declared, m_erase. simpl. destruct (decide (n = F)) as [-> | Hne].
  - rewrite lookup_alter_eq. destruct (m_functions m !! F); simpl; [| done].
    f_equal. apply isDeclaration_set_blocks. intros bs. apply fmap_nil_iff.
  - by rewrite lookup_alter_ne.
Qed.

Lemma declared_rauw x v m n : declared (m_rauw x v m) n = declared m n.
Proof.
  unfold declared, m_rauw. simpl. rewrite lookup_fmap.
  destruct (m_functions m !! n); simpl; [| done].
  f_equal. apply isDeclaration_set_blocks. intros bs. apply fmap_nil_iff.
Qed.

Lemma declared_declare name ty m n :
  declared (m_declare name ty m) n
  = if decide (n = name) then Some true else declared m n.
Proof.
  unfold declared, m_declare. simpl. case_decide as E.
  - subst. by rewrite lookup_insert_eq.
  - by rewrite lookup_insert_ne.
Qed.

Lemma classify_declare_hook ty m i :
  m_functions m !! hook = None →
  classify (m_declare hook ty m) i = classify m i.
Proof.
  intros Hn. rewrite !classify_alt. destruct (callee_name i) as [n |]; [| done].
  rewrite declared_declare. case_decide as E; [| done]. subst n.
  unfold declared. by rewrite Hn.
Qed.

Lemma classify_hook m i : callee_name i = Some hook → classify m i = Skip.
Proof.
  intros H. rewrite classify_alt, H. by destruct (declared m hook) as [[] |].
Qed.

Lemma classify_injected m i : is_load i ∨ is_init i → classify m i = Skip.
Proof.
  intros [H | H].
  - unfold is_load in H. rewrite classify_alt. unfold callee_name.
    by destruct (i_kind i).
  - unfold is_init in H. destruct (i_kind i) as [[[] | | |] | | |] eqn:E; try done.
    + subst. apply classify_hook. unfold callee_name. by rewrite E.
    + rewrite classify_alt. unfold callee_name. by rewrite E.
Qed.

Lemma is_init_subst x v i : substitute v → is_init (subst_inst x v i) ↔ is_init i.
Proof.
  intros Hv. unfold is_init, subst_inst. simpl.
  destruct (i_kind i) as [[[] | | |] | | [] |]; simpl; try done;
    case_decide; try done; by destruct Hv as [[t ->] | [z ->]].
Qed.

Lemma is_load_subst x v i : substitute v → is_load (subst_inst x v i) ↔ is_load i.
Proof.
  intros Hv. unfold is_load, subst_inst. simpl.
  destruct (i_kind i) as [| [] | |]; simpl; try done;
    case_decide; try done; by destruct Hv as [[t ->] | [z ->]].
Qed.

(** * Well-formed modules and the edits of the pass *)

Lemma evolved_id m i0 i : evolved m i0 i → i_id i = i_id i0.
Proof. intros [-> | (x & v & F & CI & name & _ & _ & _ & _ & ->)]; done. Qed.

Lemma evolved_classify m m' i0 i : evolved m i0 i → classify m' i = classify m' i0.
Proof.
  intros [-> | (x & v & F & CI & name & Hv & _ & _ & _ & ->)]; [done |].
  by apply classify_subst.
Qed.

Section build_facts.
Context {N : nat} {m m' : Module} (Hb : build N m m').

Lemma build_next : m_next_id m ≤ m_next_id m'.
Proof using Hb. destruct Hb; simpl; lia. Qed.

Lemma build_classify i : classify m' i = classify m i.
Proof using Hb.
  destruct Hb; try done.
  - by apply classify_declare_hook.
  - apply classify_declared. intros n. apply declared_insert.
  - apply classify_declared. intros n. apply declared_insert.
  - apply classify_declared. intros n. apply declared_rauw.
Qed.

(** Where an instruction of the new module comes from. *)
Lemma build_backward G i :
  i ∈ function_insts m' G →
  (fresh_inst N m i ∧ (is_load i ∨ is_init i))
  ∨ ∃ i0, i0 ∈ function_insts m G ∧ evolved m i0 i.
Proof using Hb.
  destruct Hb as [g m | m | ty m Hn | F new x m Hf Hl Hx
                  | new x l1 ix l2 m Hf Hi Hm Hx Hl1
                  | x v F CI name m Hv HCI Hx Hc].
  - rewrite function_insts_add_global. right. exists i. split; [done | by left].
  - rewrite function_insts_alloc. right. exists i. split; [done | by left].
  - rewrite function_insts_declare by done. right. exists i. split; [done | by left].
  - rewrite function_insts_insert. case_decide.
    + intros [Hi | [-> _]]%elem_of_insert_before.
      * right. exists i. split; [done | by left].
      * left. eauto.
    + right. exists i. split; [done | by left].
  - rewrite function_insts_insert. case_decide.
    + intros [Hi' | [-> _]]%elem_of_insert_before.
      * right. exists i. split; [done | by left].
      * left. eauto.
    + right. exists i. split; [done | by left].
  - rewrite function_insts_rauw. unfold b_rauw.
    intros (i0 & -> & Hi0)%list_elem_of_fmap. right. exists i0. split; [done |].
    right. by exists x, v, F, CI, name.
Qed.

(** What becomes of an instruction of the module. *)
Lemma build_forward G i0 :
  i0 ∈ function_insts m G →
  ∃ i, i ∈ function_insts m' G ∧ evolved m i0 i.
Proof using Hb.
  intros Hi0.
  destruct Hb as [g m | m | ty m Hn | F new x m Hf Hl Hx
                  | new x l1 ix l2 m Hf Hi Hm Hx Hl1
                  | x v F CI name m Hv HCI Hx Hc].
  - exists i0. split; [done | by left].
  - exists i0. split; [done | by left].
  - exists i0. split; [by rewrite function_insts_declare | by left].
  - exists i0. split; [| by left]. rewrite function_insts_insert.
    case_decide; [| done]. apply elem_of_insert_before. by left.
  - exists i0. split; [| by left]. rewrite function_insts_insert.
    case_decide; [| done]. apply elem_of_insert_before. by left.
  - exists (subst_inst x v i0). split.
    + rewrite function_insts_rauw. by apply list_elem_of_fmap_2.
    + right. by exists x, v, F, CI, name.
Qed.

Lemma build_wf : wf m → wf m'.
Proof using Hb.
  intros Hwf.
  destruct Hb as [g m | m | ty m Hn | F new x m Hf Hl Hx
                  | new x l1 ix l2 m Hf Hi Hm Hx Hl1
                  | x v F CI name m Hv HCI Hx Hc];
    intros G; destruct (Hwf G) as [Hnd Hlt].
  - done.
  - split; [done |]. intros i Hi. specialize (Hlt i Hi). simpl. lia.
  - by rewrite function_insts_declare.
  - destruct Hf as (_ & Hnew & Hfr). rewrite function_insts_insert.
    case_decide; [| done]. split; [by apply NoDup_insert_before |].
    intros i [Hi | [-> _]]%elem_of_insert_before; [by apply Hlt | done].
  - destruct Hf as (_ & Hnew & Hfr). rewrite function_insts_insert.
    case_decide; [| done]. split; [by apply NoDup_insert_before |].
    intros i [Hi' | [-> _]]%elem_of_insert_before; [by apply Hlt | done].
  - rewrite function_insts_rauw. split; [by rewrite ids_rauw |].
    intros i (i0 & -> & Hi0)%list_elem_of_fmap. by apply (Hlt i0).
Qed.

  (** An instruction older than the bound keeps its standing. *)
Lemma build_eligible_at F x : x < N → eligible_at m F x → eligible_at m' F x.
  Proof using Hb.
    intros Hx He i Hi Hid. rewrite build_classify.
    destruct (build_backward F i Hi) as [[(? & _) _] | (i0 & Hi0 & Hev)]; [lia |].
    rewrite (evolved_classify _ _ _ _ Hev). apply He; [done |].
    by rewrite <- (evolved_id _ _ _ Hev).
  Qed.
End build_facts.

Lemma build_mono N N' m m' : N' ≤ N → build N m m' → build N' m m'.
Proof.
  intros HN Hb. destruct Hb.
  - constructor.
  - constructor.
  - by constructor.
  - apply build_load; try done. unfold fresh_inst in *. naive_solver lia.
  - eapply build_init; try done.
    + unfold fresh_inst in *. naive_solver lia.
    + eapply Forall_impl; [done |]. simpl. naive_solver lia.
  - by eapply build_rauw.
Qed.

Section edit_facts.
Context {N : nat} {m m' : Module} (He : edit N m m').

Lemma edit_next : m_next_id m ≤ m_next_id m'.
Proof using He. destruct He as [m m' Hb | F x m Hx]; [by eapply build_next | done]. Qed.

Lemma edit_classify i : classify m' i = classify m i.
Proof using He.
  destruct He as [m m' Hb | F x m Hx]; [by eapply build_classify |].
  apply classify_declared. intros n. apply declared_erase.
Qed.

Lemma edit_backward G i :
  i ∈ function_insts m' G →
  (fresh_inst N m i ∧ (is_load i ∨ is_init i))
  ∨ ∃ i0, i0 ∈ function_insts m G ∧ evolved m i0 i.
Proof using He.
  destruct He as [m m' Hb | F x m Hx]; [by eapply build_backward |].
  rewrite function_insts_erase. case_decide.
  - intros [Hi _]%elem_of_erase. right. exists i. split; [done | by left].
  - right. exists i. split; [done | by left].
Qed.


Lemma edit_wf : wf m → wf m'.
  Proof using He.
    intros Hwf. destruct He as [m m' Hb | F x m Hx]; [by eapply build_wf |].
    intros G; destruct (Hwf G) as [Hnd Hlt].
    rewrite function_insts_erase. case_decide; [| done]. split.
    - by apply NoDup_erase.
    - intros i [Hi _]%elem_of_erase. by apply Hlt.
  Qed.
End edit_facts.

Lemma edit_mono N N' m m' : N' ≤ N → edit N m m' → edit N' m m'.
Proof.
  intros HN [m1 m2 Hb | F x m1 Hx].
  - apply edit_build. by eapply build_mono.
  - by apply edit_erase.
Qed.

Lemma builds_edits N m m' : rtc (build N) m m' → rtc (edit N) m m'.
Proof.
  induction 1 as [| m1 m2 m3 H _ IH]; [done |].
  eapply rtc_l; [| done]. by apply edit_build.
Qed.

Lemma builds_wf N m m' : rtc (build N) m m' → wf m → wf m'.
Proof. induction 1 as [| m1 m2 m3 H _ IH]; [done |]. eauto using build_wf. Qed.

Lemma builds_next N m m' : rtc (build N) m m' → m_next_id m ≤ m_next_id m'.
Proof.
  induction 1 as [| m1 m2 m3 H _ IH]; [done |]. apply build_next in H. lia.
Qed.

Lemma builds_classify N m m' i : rtc (build N) m m' → classify m' i = classify m i.
Proof.
  induction 1 as [| m1 m2 m3 H _ IH]; [done |]. rewrite IH. by eapply build_classify.
Qed.

Lemma builds_eligible_at N m m' F x :
  rtc (build N) m m' → x < N → eligible_at m F x → eligible_at m' F x.
Proof.
  induction 1 as [| m1 m2 m3 H _ IH]; [done |]. eauto using build_eligible_at.
Qed.

Lemma builds_forward N m m' G i0 :
  rtc (build N) m m' → i0 ∈ function_insts m G →
  ∃ i, i ∈ function_insts m' G ∧ i_id i = i_id i0
       ∧ classify m' i = classify m i0.
Proof.
  intros Hb. revert i0.
  induction Hb as [| m1 m2 m3 H _ IH]; intros i0 Hi0; [eauto |].
  destruct (build_forward H G i0 Hi0) as (i1 & Hi1 & Hev).
  destruct (IH _ Hi1) as (i & Hi & Hid & Hc). exists i. split; [done |].
  rewrite Hid, Hc, (evolved_id _ _ _ Hev), (build_classify H).
  by rewrite (evolved_classify _ _ _ _ Hev).
Qed.

Lemma edits_next N m m' : rtc (edit N) m m' → m_next_id m ≤ m_next_id m'.
Proof.
  induction 1 as [| m1 m2 m3 H _ IH]; [done |]. apply edit_next in H. lia.
Qed.

Lemma edits_wf N m m' : rtc (edit N) m m' → wf m → wf m'.
Proof. induction 1 as [| m1 m2 m3 H _ IH]; [done |]. eauto using edit_wf. Qed.

Lemma edits_classify N m m' i : rtc (edit N) m m' → classify m' i = classify m i.
Proof.
  induction 1 as [| m1 m2 m3 H _ IH]; [done |]. rewrite IH. by eapply edit_classify.
Qed.

Lemma edits_mono N N' m m' : N' ≤ N → rtc (edit N) m m' → rtc (edit N') m m'.
Proof.
  intros HN. induction 1 as [| m1 m2 m3 H _ IH]; [done |].
  eapply rtc_l; [| done]. by eapply edit_mono.
Qed.

(** ** Invariants of a sequence of edits *)

(** Instructions that are not calls to delete stay so. *)
Lemma edit_skip N m m' (Q : string → nat → Prop) :
  edit N m m' →
  (∀ G i, i ∈ function_insts m G → Q G (i_id i) → classify m i = Skip) →
  ∀ G i, i ∈ function_insts m' G → Q G (i_id i) → classify m' i = Skip.
Proof.
  intros He HQ G i Hi HQi. rewrite (edit_classify He).
  destruct (edit_backward He G i Hi) as [[_ Hk] | (i0 & Hi0 & Hev)].
  - by apply classify_injected.
  - rewrite (evolved_classify _ _ _ _ Hev). apply (HQ G); [done |].
    by rewrite <- (evolved_id _ _ _ Hev).
Qed.

Lemma edits_skip N m m' (Q : string → nat → Prop) :
  rtc (edit N) m m' →
  (∀ G i, i ∈ function_insts m G → Q G (i_id i) → classify m i = Skip) →
  ∀ G i, i ∈ function_insts m' G → Q G (i_id i) → classify m' i = Skip.
Proof. induction 1 as [| m1 m2 m3 H _ IH]; [done |]. eauto using edit_skip. Qed.

(** * Running the monad *)

Section monad_laws.
Context {A B : Type}.
Implicit Types (k : A → Pass B) (s : State).

Lemma bind_Done (m : Pass A) k s b s' :
  bind m k s = Done (b, s') ↔ ∃ a s1, m s = Done (a, s1) ∧ k a s1 = Done (b, s').
Proof.
  unfold bind. destruct (m s) as [[a s1] | |]; split; try naive_solver.
Qed.

Lemma bind_gets (f : State → A) k s : bind (gets f) k s = k (f s) s.
  Proof. done. Qed.
Lemma bind_ret (a : A) k s : bind (ret a) k s = k a s.
  Proof. done. Qed.
End monad_laws.

Lemma bind_assoc {A B C} (m : Pass A) (k1 : A → Pass B) (k2 : B → Pass C) s :
  bind (bind m k1) k2 s = bind m (λ a, bind (k1 a) k2) s.
Proof. unfold bind. by destruct (m s) as [[a s1] | |]. Qed.
Lemma bind_modify {B} (f : State → State) (k : unit → Pass B) s :
  bind (modify f) k s = k tt (f s).
Proof. done. Qed.
Lemma bind_assert {B} (b : bool) msg (k : unit → Pass B) s :
  bind (assert b msg) k s = if b then k tt s else AssertionFailed msg.
Proof. by destruct b. Qed.
Lemma bind_new_GlobalVariable {B} g (k : nat → Pass B) s :
  bind (new_GlobalVariable g) k s
  = k (length (m_globals (st_module s))) (set_module (m_add_global g) s).
Proof. done. Qed.
Lemma bind_new_inst_id {B} (k : nat → Pass B) s :
  bind new_inst_id k s = k (m_next_id (st_module s)) (set_module m_alloc s).
Proof. done. Qed.
Lemma bind_insertBefore {B} F new x (k : unit → Pass B) s :
  bind (insertBefore F new x) k s = k tt (set_module (m_insert F new x) s).
Proof. done. Qed.

Ltac run_in H :=
  repeat first
    [ rewrite bind_assoc in H | rewrite bind_gets in H | rewrite bind_ret in H | rewrite bind_modify in H
    | rewrite bind_new_GlobalVariable in H | rewrite bind_new_inst_id in H
    | rewrite bind_insertBefore in H ].

Lemma frame_refl N s : frame N s s.
Proof. by split. Qed.

Lemma frame_trans N s1 s2 s3 : frame N s1 s2 → frame N s2 s3 → frame N s1 s3.
Proof.
  intros [] []. split; [by etrans | auto | congruence | congruence].
Qed.

Lemma get_size_t_Done s t s' :
  get_size_t s = Done (t, s') →
  st_module s' = st_module s ∧ st_static s' = st_static s
  ∧ _vms (st_pass s') = _vms (st_pass s)
  ∧ _nosym (st_pass s') = _nosym (st_pass s)
  ∧ added_globals (st_pass s') = added_globals (st_pass s)
  ∧ _size_t_Ty (st_pass s') = Some t.
Proof.
  unfold get_size_t. rewrite bind_gets.
  destruct (_size_t_Ty (st_pass s)) eqn:E.
  - intros [= <- <-]. done.
  - rewrite bind_gets, bind_modify. intros [= <- <-]. done.
Qed.

Lemma get_verifier_make_symbolic_Done s f s' :
  get_verifier_make_symbolic s = Done (f, s') →
  _vms (st_pass s') = Some f
  ∧ (f = hook ∨ _vms (st_pass s) = Some f)
  ∧ st_static s' = st_static s
  ∧ _nosym (st_pass s') = _nosym (st_pass s)
  ∧ added_globals (st_pass s') = added_globals (st_pass s)
  ∧ (st_module s' = st_module s
     ∨ ∃ ty, m_functions (st_module s) !! hook = None
             ∧ st_module s' = m_declare hook ty (st_module s)).
Proof.
  unfold get_verifier_make_symbolic. rewrite bind_gets. intros H.
  destruct (_vms (st_pass s)) as [f0 |] eqn:E.
  - injection H as <- <-. rewrite E. auto 10.
  - apply bind_Done in H as (size_t & s1 & H1 & H).
    apply get_size_t_Done in H1 as (Hm & Hst & Hv & Hn & Ha & _).
    unfold getOrInsertFunction in H. run_in H. fold hook in H.
    destruct (m_functions (st_module s1) !! hook) as [fn |] eqn:Eh.
    + case_decide; run_in H; [| done]. injection H as <- <-. simpl.
      rewrite Hm, Hst, Hn, Ha. auto 10.
    + run_in H. injection H as <- <-. simpl.
      rewrite Hst, Hn, Ha, <- Hm. repeat split; try done; [by left |].
      right. eexists. split; [done |]. done.
Qed.

Lemma getGlobalNondet_hit s ty G :
  added_globals (st_pass s) !! ty = Some G → getGlobalNondet ty s = Done (G, s).
Proof. intros H. unfold getGlobalNondet. by rewrite bind_gets, H. Qed.

Lemma getGlobalNondet_miss s ty G s' :
  added_globals (st_pass s) !! ty = None →
  getGlobalNondet ty s = Done (G, s') →
  let m := st_module s in
  let n := m_next_id m in
  ∃ vms m1 size_t main_fn I1 b bs,
    G = length (m_globals m)
    ∧ (vms = hook ∨ _vms (st_pass s) = Some vms)
    ∧ (m1 = m_add_global (nondet_global ty) m
       ∨ ∃ fty, m_functions m !! hook = None
                ∧ m1 = m_declare hook fty (m_add_global (nondet_global ty) m))
    ∧ m_functions m !! "main" = Some main_fn
    ∧ f_blocks main_fn = (I1 :: b) :: bs
    ∧ st_module s'
      = m_insert "main"
          (init_call vms (S n) n size_t
             (getTypeAllocSize (m_datalayout m) ty) (S G)
             (CallAddMetadata main_fn))
          (i_id I1)
          (m_insert "main" (cast_inst n G) (i_id I1)
             (m_alloc (m_add_global name_global (m_alloc m1))))
    ∧ added_globals (st_pass s') = <[ty := G]> (added_globals (st_pass s))
    ∧ _vms (st_pass s') = Some vms
    ∧ _nosym (st_pass s') = _nosym (st_pass s)
    ∧ st_static s' = st_static s.
Proof.
  intros Hmiss H. unfold getGlobalNondet in H.
  rewrite bind_gets, Hmiss in H. run_in H.
  apply bind_Done in H as (vms & s1 & H1 & H).
  apply get_verifier_make_symbolic_Done in H1 as (Hv & Hvms & Hst & Hn & Ha & Hm).
  assert (Hnx : m_next_id (st_module s1) = m_next_id (st_module s))
    by (destruct Hm as [-> | (? & _ & ->)]; done).
  assert (Hg : m_globals (st_module s1)
               = m_globals (st_module s) ++ [nondet_global ty])
    by (destruct Hm as [-> | (? & _ & ->)]; done).
  run_in H.
  apply bind_Done in H as (size_t & s2 & H2 & H).
  apply get_size_t_Done in H2 as (Hm2 & Hst2 & Hv2 & Hn2 & Ha2 & _).
  run_in H. simpl in *.
  assert (Hmain : m_functions (st_module s2) !! "main"
                  = m_functions (st_module s) !! "main").
  { rewrite Hm2. destruct Hm as [-> | (fty & Hh & ->)]; [done |].
    simpl. by rewrite lookup_insert_ne. }
  rewrite Hmain in H.
  destruct (m_functions (st_module s) !! "main") as [main_fn |] eqn:Em; [| done].
  destruct (f_blocks main_fn) as [| [| I1 b] bs] eqn:Eb; try done.
  run_in H. injection H as <- <-. simpl.
  exists vms, (st_module s1), size_t, main_fn, I1, b, bs.
  rewrite Hm2, Hnx, Hst2, Hst, Hn2, Hn, Ha2, Ha, Hv2, Hv.
  repeat split; try done.
  unfold init_call, cast_inst, name_global. simpl.
  rewrite Hnx, Hg, length_app. simpl.
  replace (m_datalayout (st_module s1)) with (m_datalayout (st_module s))
    by (destruct Hm as [-> | (? & _ & ->)]; done).
  by rewrite Nat.add_1_r.
Qed.

Lemma wf_fresh m G i : wf m → i ∈ function_insts m G → i_id i < m_next_id m.
Proof. intros Hwf. apply (Hwf G). Qed.

Lemma wf_not_in m G n : wf m → m_next_id m ≤ n → n ∉ ids (function_insts m G).
Proof.
  intros Hwf Hn (i & -> & Hi)%list_elem_of_fmap.
  apply (wf_fresh _ _ _ Hwf) in Hi. lia.
Qed.

Lemma function_insts_main m main_fn I1 b bs :
  m_functions m !! "main" = Some main_fn → f_blocks main_fn = (I1 :: b) :: bs →
  function_insts m "main" = I1 :: (b ++ mjoin bs).
Proof. intros Hm Hb. unfold function_insts, insts. by rewrite Hm, Hb. Qed.

Lemma getGlobalNondet_frame s ty G s' :
  wf (st_module s) → pass_ok (st_pass s) →
  getGlobalNondet ty s = Done (G, s') →
  frame (m_next_id (st_module s)) s s'.
Proof.
  intros Hwf Hok H.
  destruct (added_globals (st_pass s) !! ty) as [G0 |] eqn:Ea.
  { rewrite (getGlobalNondet_hit _ _ _ Ea) in H. injection H as <- <-.
    apply frame_refl. }
  apply getGlobalNondet_miss in H
    as (vms & m1 & size_t & main_fn & I1 & b & bs & -> & Hvms & Hm1 & Hmain & Hb
        & Hm' & Ha & Hv & Hn & Hst); [| done].
  assert (vms = hook) as ->.
  { destruct Hvms as [-> | Hvms]; [done |]. destruct Hok as [Hok | Hok]; congruence. }
  set (m := st_module s) in *. set (n := m_next_id m) in *.
  split; [| by right | done | done].
  rewrite Hm'.
  assert (Hb1 : rtc (build n) m m1).
  { destruct Hm1 as [-> | (fty & Hh & ->)].
    - apply rtc_once. apply build_global.
    - eapply rtc_l; [apply build_global |]. apply rtc_once. by apply build_declare. }
  assert (Hfi1 : ∀ F, function_insts m1 F = function_insts m F).
  { intros F. destruct Hm1 as [-> | (fty & Hh & ->)]; [done |].
    by rewrite function_insts_declare. }
  assert (Hn1 : m_next_id m1 = n).
  { destruct Hm1 as [-> | (fty & Hh & ->)]; done. }
  set (m4 := m_alloc (m_add_global name_global (m_alloc m1))).
  assert (Hb4 : rtc (build n) m m4).
  { etrans; [exact Hb1 |]. eapply rtc_l; [apply build_alloc |].
    eapply rtc_l; [apply build_global |]. apply rtc_once. apply build_alloc. }
  assert (Hfi4 : ∀ F, function_insts m4 F = function_insts m F).
  { intros F. apply Hfi1. }
  assert (Hmain4 : function_insts m4 "main" = I1 :: (b ++ mjoin bs)).
  { rewrite Hfi4. by eapply function_insts_main. }
  etrans; [exact Hb4 |].
  eapply rtc_l.
  { eapply (build_init n (cast_inst n (length (m_globals m))) (i_id I1) [] I1);
      [| done | exact Hmain4 | done | done].
    split; [simpl; lia |]. split; [simpl; lia |].
    intros F. rewrite Hfi4. by apply wf_not_in. }
  apply rtc_once.
  eapply (build_init n _ (i_id I1) [cast_inst n (length (m_globals m))] I1).
  - split; [simpl; lia |]. split; [simpl; lia |].
    intros F. rewrite function_insts_insert, Hfi4.
    assert (S n ∉ ids (function_insts m F)) by (apply wf_not_in; [done | lia]).
    case_decide; [| done].
    intros [E | Hin]%ids_insert_before; [simpl in E; lia | done].
  - done.
  - rewrite function_insts_insert, decide_True, Hmain4 by done. simpl.
    rewrite decide_True by done. done.
  - done.
  - apply Forall_singleton. split; [simpl; lia | done].
Qed.

Lemma NoDup_ids_inj (l : list Instruction) i j :
  NoDup (ids l) → i ∈ l → j ∈ l → i_id i = i_id j → i = j.
Proof.
  unfold ids. induction l as [| a l IH]; [by intros _ ?%elem_of_nil |].
  csimpl. intros [Ha Hl]%NoDup_cons [-> | Hi]%elem_of_cons [-> | Hj]%elem_of_cons E.
  - done.
  - destruct Ha. rewrite E. by apply list_elem_of_fmap_2.
  - destruct Ha. rewrite <- E. by apply list_elem_of_fmap_2.
  - by apply IH.
Qed.

Lemma find_inst_Some m F x CI :
  find_inst m F x = Some CI → CI ∈ function_insts m F ∧ i_id CI = x.
Proof.
  unfold find_inst. destruct (list_find _ _) as [[k i] |] eqn:E; [| done].
  intros [= <-]. apply list_find_Some in E as (Hk & Hx & _).
  split; [by eapply list_elem_of_lookup_2 | done].
Qed.

Lemma find_inst_None m F x :
  find_inst m F x = None → x ∉ ids (function_insts m F).
Proof.
  unfold find_inst. destruct (list_find _ _) as [[k i] |] eqn:E; [done |].
  intros _ (i & -> & Hi)%list_elem_of_fmap.
  apply list_find_None in E. rewrite Forall_forall in E. by apply (E i).
Qed.

Lemma find_inst_eligible_at m F x CI name :
  wf m → find_inst m F x = Some CI → classify m CI = Eligible name →
  eligible_at m F x.
Proof.
  intros Hwf [HCI Hx]%find_inst_Some Hc i Hi Hid. exists name.
  destruct (Hwf F) as [Hnd _].
  by rewrite (NoDup_ids_inj _ i CI Hnd Hi HCI) by congruence.
Qed.

Lemma report_Done name CI s u s' :
  report name CI s = Done (u, s') →
  st_module s' = st_module s ∧ st_pass s' = st_pass s
  ∧ st_static s'
    = if decide (name ∈ removed_calls (st_static s)) then st_static s
      else {| removed_calls := {[ name ]} ∪ removed_calls (st_static s);
              errs := errs (st_static s)
                      ++ [diagnostic name (isVoidTy (i_type CI))
                            (_nosym (st_pass s))] |}.
Proof.
  unfold report. rewrite bind_gets. case_decide.
  - by intros [= <- <-].
  - rewrite bind_gets. by intros [= <- <-].
Qed.

Lemma replaceCall_frame F CI name s u s' :
  wf (st_module s) → pass_ok (st_pass s) →
  CI ∈ function_insts (st_module s) F →
  classify (st_module s) CI = Eligible name →
  eligible_at (st_module s) F (i_id CI) →
  replaceCall F CI s = Done (u, s') →
  frame (m_next_id (st_module s)) s s'.
Proof.
  intros Hwf Hok HCI Hc Hel H. unfold replaceCall in H.
  rewrite bind_new_GlobalVariable, !bind_assert in H.
  destruct (negb (isVoidTy (i_type CI))); [| done].
  destruct (isSized (i_type CI)); [| done].
  apply bind_Done in H as (G & s2 & H2 & H).
  set (n := m_next_id (st_module s)).
  set (s1 := set_module _ s) in H2.
  assert (Hb1 : rtc (build n) (st_module s) (st_module s1))
    by (apply rtc_once, build_global).
  apply getGlobalNondet_frame in H2 as [Hb2 Hok2 Hn2 Hst2]; [| done | done].
  change (m_next_id (st_module s1)) with n in Hb2.
  assert (Hb12 : rtc (build n) (st_module s) (st_module s2)) by (by etrans).
  pose proof (builds_wf _ _ _ Hb12 Hwf) as Hwf2.
  pose proof (builds_next _ _ _ Hb12) as Hnx2. fold n in Hnx2.
  destruct (Hwf F) as [_ Hlt]. pose proof (Hlt _ HCI) as Hx. fold n in Hx.
  run_in H. unfold replaceAllUsesWith in H. injection H as <- <-.
  split; simpl; [| auto | done | done].
  match goal with |- rtc _ _ (m_rauw _ _ ?m3') => set (m3 := m3') end.
  assert (Hb3 : rtc (build n) (st_module s) m3).
  { eapply rtc_r; [eapply rtc_r; [exact Hb12 | apply build_alloc] |].
    apply build_load.
    - split; [simpl; lia |]. split; [simpl; lia |].
      intros G'. rewrite function_insts_alloc. simpl.
      apply wf_not_in; [done | lia].
    - done.
    - eapply (builds_eligible_at n); [| done | done].
      eapply rtc_r; [exact Hb12 | apply build_alloc]. }
  eapply rtc_r; [exact Hb3 |].
  destruct (builds_forward _ _ _ F CI Hb3 HCI) as (CI' & HCI' & Hid & Hc').
  eapply (build_rauw n _ _ F CI' name); [right; eauto | done | done |].
  by rewrite Hc'.
Qed.

Lemma runOnInstruction_step F x s b s' :
  wf (st_module s) → pass_ok (st_pass s) →
  runOnInstruction F x s = Done (b, s') →
  rtc (edit (m_next_id (st_module s))) (st_module s) (st_module s')
  ∧ pass_ok (st_pass s')
  ∧ _nosym (st_pass s') = _nosym (st_pass s)
  ∧ (if b
     then (x ∉ ids (function_insts (st_module s') F))
          ∧ (∃ CI name, find_inst (st_module s) F x = Some CI
                        ∧ classify (st_module s) CI = Eligible name)
     else (s' = s)
          ∧ (∀ i, i ∈ function_insts (st_module s) F → i_id i = x →
                  classify (st_module s) i = Skip)).
Proof.
  intros Hwf Hok H. unfold runOnInstruction in H. rewrite bind_gets in H.
  set (m := st_module s) in *. set (n := m_next_id m).
  destruct (find_inst m F x) as [CI |] eqn:Ef.
  2:{ injection H as <- <-. repeat split; try done.
      intros i Hi Hx. apply find_inst_None in Ef. destruct Ef.
      rewrite <- Hx. by apply list_elem_of_fmap_2. }
  pose proof (find_inst_Some _ _ _ _ Ef) as [HCI Hx].
  destruct (classify m CI) as [| name |] eqn:Ec; [| | done].
  { injection H as <- <-. repeat split; try done.
    intros i Hi Hxi. destruct (Hwf F) as [Hnd _].
    by rewrite (NoDup_ids_inj _ i CI Hnd Hi HCI) by congruence. }
  pose proof (find_inst_eligible_at _ _ _ _ _ Hwf Ef Ec) as Hel.
  apply bind_Done in H as (u & s1 & H1 & H).
  apply report_Done in H1 as (Hm1 & Hp1 & _).
  assert (∃ s2, frame n s1 s2 ∧ s' = set_module (m_erase F (i_id CI)) s2
                ∧ b = true) as (s2 & [Hb2 Hok2 Hn2 _] & -> & ->).
  { destruct (isVoidTy (i_type CI)).
    - run_in H. unfold eraseFromParent in H. run_in H. injection H as <- <-.
      exists s1. split; [apply frame_refl | done].
    - rewrite bind_assoc, bind_gets in H.
      destruct (_nosym (st_pass s1)).
      + unfold replaceAllUsesWith, eraseFromParent in H. run_in H.
        injection H as <- <-. eexists. split; [| done].
        split; simpl; [| done | done | done].
        apply rtc_once. eapply (build_rauw n _ _ F CI name); [left; eauto | | done |];
          by rewrite Hm1.
      + apply bind_Done in H as (u2 & s2 & H2 & H).
        unfold eraseFromParent in H. run_in H. injection H as <- <-.
        exists s2. split; [| done].
        replace n with (m_next_id (st_module s1)) by (by rewrite Hm1).
        eapply replaceCall_frame; [| | | | | exact H2]; rewrite ?Hm1, ?Hp1, ?Hx; done. }
  rewrite Hm1 in Hb2. rewrite Hp1 in Hok2, Hn2. simpl.
  split; [| split; [auto | split; [done |]]].
  - eapply rtc_r; [by apply builds_edits |]. apply edit_erase.
    destruct (Hwf F) as [_ Hlt]. pose proof (Hlt _ HCI).
    eapply (builds_eligible_at n); [done | lia | by rewrite Hx].
  - split; [| eauto]. rewrite function_insts_erase, decide_True by done.
    rewrite Hx. apply ids_erase.
Qed.

(** * Whole runs *)

Lemma run_post_refl s : wf (st_module s) → pass_ok (st_pass s) → run_post s s.
Proof. by split. Qed.

Lemma run_post_trans s1 s2 s3 : run_post s1 s2 → run_post s2 s3 → run_post s1 s3.
Proof.
  intros [He1 ? ? ?] [He2 ? ? ?]. split; [| done | done | congruence].
  etrans; [exact He1 |]. eapply edits_mono; [| exact He2].
  by eapply edits_next.
Qed.

Lemma runOnInstruction_post F x s b s' :
  wf (st_module s) → pass_ok (st_pass s) →
  runOnInstruction F x s = Done (b, s') → run_post s s'.
Proof.
  intros Hwf Hok H.
  destruct (runOnInstruction_step _ _ _ _ _ Hwf Hok H) as (He & Hok' & Hn & _).
  split; [done | by eapply edits_wf | done | done].
Qed.

Lemma run_loop_spec handled F todo modified s b s' :
  wf (st_module s) → pass_ok (st_pass s) →
  run_loop F todo modified s = Done (b, s') →
  run_post s s'
  ∧ (skip_inv (past handled F todo) (st_module s) →
     skip_inv (past handled F []) (st_module s')).
Proof.
  revert modified s. induction todo as [| x todo IH]; intros modified s Hwf Hok H.
  - injection H as <- <-. split; [by apply run_post_refl | done].
  - simpl in H. apply bind_Done in H as (c & s1 & H1 & H).
    pose proof (runOnInstruction_post _ _ _ _ _ Hwf Hok H1) as Hp1.
    destruct (runOnInstruction_step _ _ _ _ _ Hwf Hok H1) as (He & _ & _ & Hc).
    destruct (IH _ _ (run_wf _ _ Hp1) (run_pass_ok _ _ Hp1) H) as [Hp Hs].
    split; [by eapply run_post_trans |].
    intros Hinv. apply Hs. clear Hs H IH. intros G i Hi HQ.
    destruct c.
    + destruct Hc as [Hx _].
      eapply (edits_skip _ _ _ (past handled F (x :: todo))); [done | done | done |].
      destruct HQ as [HQ | [-> HQ]]; [by left |]. right. split; [done |].
      intros [E | Hin]%elem_of_cons; [| done].
      apply Hx. rewrite <- E. by apply list_elem_of_fmap_2.
    + destruct Hc as [-> Hsk].
      destruct HQ as [HQ | [-> HQ]]; [apply (Hinv G); [done | by left] |].
      destruct (decide (i_id i = x)) as [E | E]; [by apply Hsk |].
      apply (Hinv F); [done |]. right. split; [done |].
      by intros [E' | Hin]%elem_of_cons.
Qed.

Lemma runOnFunction_spec handled F s b s' :
  wf (st_module s) → pass_ok (st_pass s) →
  runOnFunction F s = Done (b, s') →
  run_post s s'
  ∧ (skip_inv (λ G _, handled G) (st_module s) →
     skip_inv (λ G _, handled G ∨ G = F) (st_module s')).
Proof.
  intros Hwf Hok H. unfold runOnFunction in H. rewrite bind_gets in H.
  destruct (run_loop_spec handled _ _ _ _ _ _ Hwf Hok H) as [Hp Hs].
  split; [done |]. intros Hinv G i Hi HQ.
  eapply (Hs _ G i Hi).
  Unshelve.
  - destruct HQ as [HQ | ->]; [by left |]. right. split; [done |].
    by intros ?%elem_of_nil.
  - intros G' i' Hi' [HQ' | [-> HQ']]; [by apply (Hinv G') |].
    destruct HQ'. by apply list_elem_of_fmap_2.
Qed.

Lemma runOnFunctions_spec handled order s bs s' :
  wf (st_module s) → pass_ok (st_pass s) →
  runOnFunctions order s = Done (bs, s') →
  run_post s s'
  ∧ (skip_inv (λ G _, handled G) (st_module s) →
     skip_inv (λ G _, handled G ∨ G ∈ order) (st_module s')).
Proof.
  revert handled s bs. induction order as [| F order IH]; intros handled s bs Hwf Hok H.
  - injection H as <- <-. split; [by apply run_post_refl |].
    intros Hinv G i Hi [HQ | HQ%elem_of_nil]; [by apply (Hinv G) | done].
  - simpl in H. apply bind_Done in H as (b & s1 & H1 & H).
    apply bind_Done in H as (bs1 & s2 & H2 & H). injection H as <- <-.
    destruct (runOnFunction_spec handled _ _ _ _ Hwf Hok H1) as [Hp1 Hs1].
    destruct (IH (λ G, handled G ∨ G = F) _ _ (run_wf _ _ Hp1) (run_pass_ok _ _ Hp1) H2)
      as [Hp2 Hs2].
    split; [by eapply run_post_trans |].
    intros Hinv G i Hi HQ. apply (Hs2 (Hs1 Hinv) G i Hi).
    destruct HQ as [HQ | [-> | HQ]%elem_of_cons]; auto.
Qed.

Lemma insert_before_nil_inv new x l : insert_before new x l = [] → l = [].
Proof. destruct l; simpl; [done |]. by case_decide. Qed.

Lemma edit_nonempty N m m' G :
  edit N m m' → function_insts m' G ≠ [] → function_insts m G ≠ [].
Proof.
  intros [m1 m2 Hb | F x m1 Hx].
  - destruct Hb.
    + done.
    + done.
    + by rewrite function_insts_declare.
    + rewrite function_insts_insert. case_decide; [| done].
      intros Hne E. by rewrite E in Hne.
    + rewrite function_insts_insert. case_decide; [| done].
      intros Hne E. by rewrite E in Hne.
    + rewrite function_insts_rauw. intros Hne E. by rewrite E in Hne.
  - rewrite function_insts_erase. case_decide; [| done].
    intros Hne E. by rewrite E in Hne.
Qed.

Lemma edits_nonempty N m m' G :
  rtc (edit N) m m' → function_insts m' G ≠ [] → function_insts m G ≠ [].
Proof.
  induction 1 as [| m1 m2 m3 H _ IH]; [done |]. eauto using edit_nonempty.
Qed.

Lemma run_leaves_no_call order s bs s' :
  wf (st_module s) → pass_ok (st_pass s) → covers order (st_module s) →
  runOnFunctions order s = Done (bs, s') →
  ∀ F i, i ∈ function_insts (st_module s') F →
         classify (st_module s') i = Skip.
Proof.
  intros Hwf Hok Hcover H F i Hi.
  destruct (runOnFunctions_spec (λ _, False) _ _ _ _ Hwf Hok H) as [Hp Hs].
  eapply (Hs _ F i Hi). Unshelve.
  - right. apply Hcover. eapply edits_nonempty; [apply (run_edits _ _ Hp) |].
    intros E. rewrite E in Hi. by apply elem_of_nil in Hi.
  - by intros G j _ [].
Qed.


(** * A module without calls to delete is left alone *)

Lemma runOnInstruction_skip F x s :
  (∀ i, i ∈ function_insts (st_module s) F → classify (st_module s) i = Skip) →
  runOnInstruction F x s = Done (false, s).
Proof.
  intros Hs. unfold runOnInstruction. rewrite bind_gets.
  destruct (find_inst (st_module s) F x) as [CI |] eqn:Ef; [| done].
  apply find_inst_Some in Ef as [HCI _]. by rewrite (Hs _ HCI).
Qed.

Lemma run_loop_skip F todo modified s :
  (∀ i, i ∈ function_insts (st_module s) F → classify (st_module s) i = Skip) →
  run_loop F todo modified s = Done (modified, s).
Proof.
  intros Hs. revert modified. induction todo as [| x todo IH]; intros modified; [done |].
  simpl. unfold bind at 1. rewrite runOnInstruction_skip by done. apply IH.
Qed.

Lemma runOnFunction_skip F s :
  (∀ i, i ∈ function_insts (st_module s) F → classify (st_module s) i = Skip) →
  runOnFunction F s = Done (false, s).
Proof. intros Hs. unfold runOnFunction. rewrite bind_gets. by apply run_loop_skip. Qed.

Lemma runOnFunctions_skip order s :
  (∀ F i, i ∈ function_insts (st_module s) F → classify (st_module s) i = Skip) →
  runOnFunctions order s = Done (replicate (length order) false, s).
Proof.
  intros Hs. induction order as [| F order IH]; [done |].
  simpl. unfold bind at 1. rewrite runOnFunction_skip by (intros; by eapply Hs).
  unfold bind at 1. by rewrite IH.
Qed.

(** * One loop turn, written out *)

Lemma report_reported name CI s : report name CI s = Done (tt, reported name CI s).
Proof.
  unfold report, reported. rewrite bind_gets. case_decide; [done |].
  by rewrite bind_gets.
Qed.

Lemma reported_module name CI s : st_module (reported name CI s) = st_module s.
Proof. unfold reported. by case_decide. Qed.

Lemma reported_pass name CI s : st_pass (reported name CI s) = st_pass s.
Proof. unfold reported. by case_decide. Qed.

Lemma runOnInstruction_eligible F x s CI name :
  find_inst (st_module s) F x = Some CI →
  classify (st_module s) CI = Eligible name →
  runOnInstruction F x s
  = ((if isVoidTy (i_type CI) then ret tt
      else if _nosym (st_pass s)
           then replaceAllUsesWith (i_id CI) (VConst (CNull (i_type CI)))
           else replaceCall F CI) ;;;
     eraseFromParent F (i_id CI) ;;;
     ret true) (reported name CI s).
Proof.
  intros Hf Hc. unfold runOnInstruction. rewrite bind_gets, Hf, Hc.
  unfold bind at 1. rewrite report_reported.
  destruct (isVoidTy (i_type CI)); [done |].
  rewrite bind_assoc, bind_gets, reported_pass. done.
Qed.

Lemma runOnInstruction_void F x s CI name :
  find_inst (st_module s) F x = Some CI →
  classify (st_module s) CI = Eligible name →
  isVoidTy (i_type CI) = true →
  runOnInstruction F x s
  = Done (true, set_module (m_erase F (i_id CI)) (reported name CI s)).
Proof.
  intros Hf Hc Hv. rewrite (runOnInstruction_eligible _ _ _ _ _ Hf Hc), Hv. done.
Qed.

Lemma runOnInstruction_zero F x s CI name :
  find_inst (st_module s) F x = Some CI →
  classify (st_module s) CI = Eligible name →
  isVoidTy (i_type CI) = false → _nosym (st_pass s) = true →
  runOnInstruction F x s
  = Done (true,
          set_module (m_erase F (i_id CI))
            (set_module (m_rauw (i_id CI) (VConst (CNull (i_type CI))))
               (reported name CI s))).
Proof.
  intros Hf Hc Hv Hn. rewrite (runOnInstruction_eligible _ _ _ _ _ Hf Hc), Hv, Hn. done.
Qed.

Lemma replaceCall_Done F CI s u s' :
  replaceCall F CI s = Done (u, s') →
  isVoidTy (i_type CI) = false ∧ isSized (i_type CI) = true
  ∧ ∃ G s2,
      getGlobalNondet (i_type CI) (set_module (m_add_global name_global) s)
      = Done (G, s2)
      ∧ s' = set_module
               (λ m, m_rauw (i_id CI) (VInstr (m_next_id m))
                       (m_insert F (load_inst (m_next_id m) (i_type CI) G)
                          (i_id CI) (m_alloc m))) s2.
Proof.
  unfold replaceCall. rewrite bind_new_GlobalVariable, !bind_assert. intros H.
  destruct (isVoidTy (i_type CI)); [done |]. simpl in H.
  destruct (isSized (i_type CI)); [| done]. split; [done |]. split; [done |].
  apply bind_Done in H as (G & s2 & H2 & H). exists G, s2. split; [done |].
  run_in H. unfold replaceAllUsesWith in H. by injection H as <- <-.
Qed.

Lemma runOnInstruction_symbolic F x s CI name b s' :
  find_inst (st_module s) F x = Some CI →
  classify (st_module s) CI = Eligible name →
  isVoidTy (i_type CI) = false → _nosym (st_pass s) = false →
  runOnInstruction F x s = Done (b, s') →
  b = true ∧ isSized (i_type CI) = true
  ∧ ∃ G s2,
      getGlobalNondet (i_type CI)
        (set_module (m_add_global name_global) (reported name CI s))
      = Done (G, s2)
      ∧ s' = set_module
               (λ m, m_erase F (i_id CI)
                       (m_rauw (i_id CI) (VInstr (m_next_id m))
                          (m_insert F (load_inst (m_next_id m) (i_type CI) G)
                             (i_id CI) (m_alloc m)))) s2.
Proof.
  intros Hf Hc Hv Hn. rewrite (runOnInstruction_eligible _ _ _ _ _ Hf Hc), Hv, Hn.
  intros H. apply bind_Done in H as (u & s3 & H3 & H).
  apply replaceCall_Done in H3 as (_ & Hs & G & s2 & H2 & ->).
  unfold eraseFromParent in H. run_in H. injection H as <- <-.
  split; [done |]. split; [done |]. by exists G, s2.
Qed.

(** A relation that every loop turn respects holds of whole runs. *)
Section runs.
Context (P : State → Prop) (R : State → State → Prop).
Context (Rrefl : ∀ s, R s s) (Rtrans : ∀ s1 s2 s3, R s1 s2 → R s2 s3 → R s1 s3).
Context (Hstep : ∀ F x s b s', P s → runOnInstruction F x s = Done (b, s') →
                                 P s' ∧ R s s').

Lemma run_loop_rel F todo modified s b s' :
  P s → run_loop F todo modified s = Done (b, s') → P s' ∧ R s s'.
Proof using Rrefl Rtrans Hstep.
  revert modified s. induction todo as [| x todo IH]; intros modified s HP H.
  - by injection H as <- <-.
  - simpl in H. apply bind_Done in H as (c & s1 & H1 & H).
    destruct (Hstep _ _ _ _ _ HP H1) as [HP1 HR1].
    destruct (IH _ _ HP1 H) as [HP' HR']. eauto.
Qed.

Lemma runOnFunction_rel F s b s' :
  P s → runOnFunction F s = Done (b, s') → P s' ∧ R s s'.
Proof using Rrefl Rtrans Hstep.
  intros HP H. unfold runOnFunction in H. rewrite bind_gets in H.
  by eapply run_loop_rel.
Qed.

Lemma runOnFunctions_rel order s bs s' :
    P s → runOnFunctions order s = Done (bs, s') → P s' ∧ R s s'.
  Proof using Rrefl Rtrans Hstep.
    revert s bs. induction order as [| F order IH]; intros s bs HP H.
    - by injection H as <- <-.
    - simpl in H. apply bind_Done in H as (b & s1 & H1 & H).
      apply bind_Done in H as (bs1 & s2 & H2 & H). injection H as <- <-.
      destruct (runOnFunction_rel _ _ _ _ HP H1) as [HP1 HR1].
      destruct (IH _ _ HP1 H2) as [HP2 HR2]. eauto.
  Qed.
End runs.

(** * Uses of an instruction's result *)

Lemma subst_value_spec x v o :
  subst_value x v o = if decide (o = VInstr x) then v else o.
Proof.
  unfold subst_value. destruct o as [c | y | n | a].
  - by rewrite decide_False.
  - destruct (decide (y = x)) as [-> | Hne].
    + by rewrite decide_True.
    + rewrite decide_False; [done | congruence].
  - by rewrite decide_False.
  - by rewrite decide_False.
Qed.

Lemma operands_subst x v i :
  operands (subst_inst x v i) = subst_value x v <$> operands i.
Proof. unfold operands, subst_inst. simpl. by destruct (i_kind i). Qed.

Lemma subst_no_use x v i : v ≠ VInstr x → ¬ uses x (subst_inst x v i).
Proof.
  intros Hv. unfold uses. rewrite operands_subst.
  intros (o & E & _)%list_elem_of_fmap. rewrite subst_value_spec in E.
  case_decide; congruence.
Qed.

Lemma rauw_no_use x v m G i :
  v ≠ VInstr x → i ∈ function_insts (m_rauw x v m) G → ¬ uses x i.
Proof.
  intros Hv. rewrite function_insts_rauw. unfold b_rauw.
  intros (i0 & -> & _)%list_elem_of_fmap. by apply subst_no_use.
Qed.

(** * The Zero policy *)

Lemma zero_rel_refl s : zero_rel s s.
Proof. split; try done. intros G i Hi. by exists i. Qed.

Lemma zero_rel_trans s1 s2 s3 : zero_rel s1 s2 → zero_rel s2 s3 → zero_rel s1 s3.
Proof.
  intros [Hp1 Hg1 Hn1 Hd1 Hi1] [Hp2 Hg2 Hn2 Hd2 Hi2].
  split; try congruence. intros G i Hi.
  destruct (Hi2 G i Hi) as (i1 & Hin1 & ? & ? & ?).
  destruct (Hi1 G i1 Hin1) as (i0 & Hin0 & ? & ? & ?).
  exists i0. repeat split; congruence.
Qed.

Lemma zero_rel_reported name CI s : zero_rel s (reported name CI s).
Proof. unfold reported. case_decide; [apply zero_rel_refl |]. split; try done. intros G i Hi. by exists i. Qed.

Lemma zero_rel_erase F x s : zero_rel s (set_module (m_erase F x) s).
Proof.
  split; try done.
  - simpl. by rewrite dom_alter_L.
  - intros G i. simpl. rewrite function_insts_erase.
    case_decide; [intros [Hi _]%elem_of_erase |]; by exists i.
Qed.

Lemma zero_rel_rauw x t s :
  zero_rel s (set_module (m_rauw x (VConst (CNull t))) s).
Proof.
  split; try done.
  - simpl. by rewrite dom_fmap_L.
  - intros G i. simpl. rewrite function_insts_rauw. unfold b_rauw.
    intros (i0 & -> & Hi0)%list_elem_of_fmap. exists i0.
    repeat split; try done. apply callee_name_subst. left. eauto.
Qed.

Lemma runOnInstruction_zero_rel F x s b s' :
  _nosym (st_pass s) = true → runOnInstruction F x s = Done (b, s') →
  _nosym (st_pass s') = true ∧ zero_rel s s'.
Proof.
  intros Hn H.
  destruct (find_inst (st_module s) F x) as [CI |] eqn:Ef.
  2:{ unfold runOnInstruction in H. rewrite bind_gets, Ef in H.
      injection H as <- <-. split; [done | apply zero_rel_refl]. }
  destruct (classify (st_module s) CI) as [| name |] eqn:Ec.
  - unfold runOnInstruction in H. rewrite bind_gets, Ef, Ec in H.
    injection H as <- <-. split; [done | apply zero_rel_refl].
  - destruct (isVoidTy (i_type CI)) eqn:Ev.
    + rewrite (runOnInstruction_void _ _ _ _ _ Ef Ec Ev) in H. injection H as <- <-.
      split; [simpl; by rewrite reported_pass |].
      eapply zero_rel_trans; [apply zero_rel_reported | apply zero_rel_erase].
    + rewrite (runOnInstruction_zero _ _ _ _ _ Ef Ec Ev Hn) in H. injection H as <- <-.
      split; [simpl; by rewrite reported_pass |].
      eapply zero_rel_trans; [apply zero_rel_reported |].
      eapply zero_rel_trans; [apply zero_rel_rauw | apply zero_rel_erase].
  - unfold runOnInstruction in H. by rewrite bind_gets, Ef, Ec in H.
Qed.

(** C5 (Zero policy).  For a call taken for deletion: with a non-void
    result and the Zero policy, one loop turn replaces every use of the
    call's result, in the whole module, by the null constant of the result
    type, then erases the call, and leaves the pass object as it is; with a
    void result it only erases the call, under either policy.  A run under
    the Zero policy creates no global, no function, no instruction and no
    call to the make-symbolic hook: every instruction left stems from one of
    the same identity, type and callee. *)
Theorem zero_policy_rewrite F x s CI name :
  find_inst (st_module s) F x = Some CI →
  classify (st_module s) CI = Eligible name →
  (isVoidTy (i_type CI) = false → _nosym (st_pass s) = true →
   let zero := VConst (CNull (i_type CI)) in
   ∃ s', runOnInstruction F x s = Done (true, s')
         ∧ st_module s' = m_erase F x (m_rauw x zero (st_module s))
         ∧ st_pass s' = st_pass s
         ∧ (∀ G, function_insts (st_module s') G
                 = if decide (G = F)
                   then erase x (b_rauw x zero (function_insts (st_module s) G))
                   else b_rauw x zero (function_insts (st_module s) G))
         ∧ (∀ G i, i ∈ function_insts (st_module s') G → ¬ uses x i)
         ∧ x ∉ ids (function_insts (st_module s') F))
  ∧ (isVoidTy (i_type CI) = true →
     ∃ s', runOnInstruction F x s = Done (true, s')
           ∧ st_module s' = m_erase F x (st_module s)
           ∧ st_pass s' = st_pass s)
  ∧ (_nosym (st_pass s) = true →
     ∀ order bs s', runOnFunctions order s = Done (bs, s') → zero_rel s s').
Proof.
  intros Hf Hc. pose proof (find_inst_Some _ _ _ _ Hf) as [HCI Hx].
  split; [| split].
  - intros Hv Hn zero. eexists. split; [by apply (runOnInstruction_zero _ _ _ CI name) |].
    simpl. rewrite reported_module, reported_pass, Hx.
    split; [done |]. split; [done |].
    assert (Hfi : ∀ G, function_insts (m_erase F x (m_rauw x zero (st_module s))) G
                 = if decide (G = F)
                   then erase x (b_rauw x zero (function_insts (st_module s) G))
                   else b_rauw x zero (function_insts (st_module s) G)).
    { intros G. rewrite function_insts_erase, function_insts_rauw. done. }
    split; [done |]. split.
    + intros G i. rewrite Hfi. intros Hi.
      assert (i ∈ b_rauw x zero (function_insts (st_module s) G)) as Hi'.
      { case_decide; [by apply elem_of_erase in Hi as [? _] | done]. }
      unfold b_rauw in Hi'. apply list_elem_of_fmap in Hi' as (i0 & -> & _).
      by apply subst_no_use.
    + rewrite Hfi, decide_True by done. apply ids_erase.
  - intros Hv. eexists. split; [by apply (runOnInstruction_void _ _ _ CI name) |].
    simpl. by rewrite reported_module, reported_pass, Hx.
  - intros Hn order bs s' H.
    eapply (runOnFunctions_rel (λ s, _nosym (st_pass s) = true) zero_rel);
      [apply zero_rel_refl | apply zero_rel_trans | | exact Hn | exact H].
    intros. by eapply runOnInstruction_zero_rel.
Qed.

(** * The cache of nondeterministic globals *)


Lemma getGlobalNondet_cases s ty G s' :
  getGlobalNondet ty s = Done (G, s') →
  (added_globals (st_pass s) !! ty = Some G ∧ s' = s)
  ∨ (added_globals (st_pass s) !! ty = None
     ∧ G = length (m_globals (st_module s))
     ∧ m_globals (st_module s')
       = m_globals (st_module s) ++ [nondet_global ty; name_global]
     ∧ added_globals (st_pass s') = <[ty := G]> (added_globals (st_pass s))
     ∧ st_static s' = st_static s
     ∧ _nosym (st_pass s') = _nosym (st_pass s)).
Proof.
  intros H. destruct (added_globals (st_pass s) !! ty) as [G0 |] eqn:E.
  - rewrite (getGlobalNondet_hit _ _ _ E) in H. injection H as <- <-. by left.
  - right. apply getGlobalNondet_miss in H
      as (vms & m1 & size_t & main_fn & I1 & b & bs & -> & _ & Hm1 & _ & _ & Hm'
          & Ha & _ & Hn & Hst); [| done].
    repeat split; try done. rewrite Hm'. simpl.
    destruct Hm1 as [-> | (fty & _ & ->)]; simpl; by rewrite <- app_assoc.
Qed.



(** * Name strings *)

Lemma name_strings_app m l :
  length (filter (λ g, g_init g = CDataString "nondet") (m_globals m ++ l))
  = length (name_strings m)
    + length (filter (λ g, g_init g = CDataString "nondet") l).
Proof. by rewrite filter_app, length_app. Qed.

Lemma replaceCall_globals F CI s u s' :
  replaceCall F CI s = Done (u, s') →
  m_globals (st_module s')
  = m_globals (st_module s)
    ++ name_global
       :: match added_globals (st_pass s) !! i_type CI with
          | Some _ => []
          | None => [nondet_global (i_type CI); name_global]
          end.
Proof.
  intros (_ & _ & G & s2 & H2 & ->)%replaceCall_Done. simpl.
  apply getGlobalNondet_cases in H2 as [[Hhit ->] | (Hmiss & _ & Hg & _)].
  - simpl in *. by rewrite Hhit.
  - simpl in *. rewrite Hmiss, Hg. by rewrite <- app_assoc.
Qed.

(** C10 (a name string per rewrite).  Under the Symbolic policy the rewrite
    of a call with a non-void result appends one private constant global
    holding the string [nondet] ([replaceCall]), and when the result type is
    not cached yet also the nondeterministic global and a second such
    string: the number of [nondet] strings grows by one when the type is
    cached and by two when it is not. *)
Theorem name_string_per_rewrite F x s CI name b s' :
  find_inst (st_module s) F x = Some CI →
  classify (st_module s) CI = Eligible name →
  isVoidTy (i_type CI) = false → _nosym (st_pass s) = false →
  runOnInstruction F x s = Done (b, s') →
  m_globals (st_module s')
  = m_globals (st_module s)
    ++ name_global
       :: match added_globals (st_pass s) !! i_type CI with
          | Some _ => []
          | None => [nondet_global (i_type CI); name_global]
          end
  ∧ length (name_strings (st_module s'))
    = length (name_strings (st_module s))
      + match added_globals (st_pass s) !! i_type CI with
        | Some _ => 1
        | None => 2
        end.
Proof.
  intros Hf Hc Hv Hn H.
  rewrite (runOnInstruction_eligible _ _ _ _ _ Hf Hc), Hv, Hn in H.
  apply bind_Done in H as (u & s3 & H3 & H).
  unfold eraseFromParent in H. run_in H. injection H as <- <-.
  apply replaceCall_globals in H3. rewrite reported_module, reported_pass in H3.
  simpl. split; [done |].
  unfold name_strings at 1. simpl. rewrite H3, name_strings_app.
  by destruct (added_globals (st_pass s) !! i_type CI).
Qed.

(** * The entry function *)

Lemma bind_eq {A B} (m : Pass A) (k : A → Pass B) s a s1 :
  m s = Done (a, s1) → bind m k s = k a s1.
Proof. intros H. unfold bind. by rewrite H. Qed.





(** * Diagnostics *)

Lemma static_rel_refl s : static_rel s s.
Proof. split; [done | done | lia]. Qed.

Lemma static_rel_trans s1 s2 s3 : static_rel s1 s2 → static_rel s2 s3 → static_rel s1 s3.
Proof. intros [] []. split; [by etrans | by etrans | lia]. Qed.

Lemma static_rel_eq s s' : st_static s' = st_static s → static_rel s s'.
Proof. intros H. split; rewrite H; [done | done | lia]. Qed.

Lemma size_add_name (name : string) (X : gset string) :
  name ∉ X → size ({[name]} ∪ X) = S (size X).
Proof.
  intros H. rewrite size_union by set_solver. by rewrite size_singleton.
Qed.

Lemma static_rel_reported name CI s : static_rel s (reported name CI s).
Proof.
  unfold reported. case_decide; [apply static_rel_refl |]. split; simpl.
  - set_solver.
  - by apply prefix_app_r.
  - rewrite length_app, size_add_name by done. simpl. lia.
Qed.

Lemma runOnInstruction_static F x s b s' :
  runOnInstruction F x s = Done (b, s') →
  if b
  then ∃ CI name, find_inst (st_module s) F x = Some CI
                  ∧ classify (st_module s) CI = Eligible name
                  ∧ st_static s' = st_static (reported name CI s)
  else s' = s.
Proof.
  intros H.
  destruct (find_inst (st_module s) F x) as [CI |] eqn:Ef.
  2:{ unfold runOnInstruction in H. rewrite bind_gets, Ef in H. by injection H as <- <-. }
  destruct (classify (st_module s) CI) as [| name |] eqn:Ec.
  - unfold runOnInstruction in H. rewrite bind_gets, Ef, Ec in H. by injection H as <- <-.
  - destruct (isVoidTy (i_type CI)) eqn:Ev.
    { rewrite (runOnInstruction_void _ _ _ _ _ Ef Ec Ev) in H. injection H as <- <-.
      by exists CI, name. }
    destruct (_nosym (st_pass s)) eqn:En.
    { rewrite (runOnInstruction_zero _ _ _ _ _ Ef Ec Ev En) in H. injection H as <- <-.
      by exists CI, name. }
    destruct (runOnInstruction_symbolic _ _ _ _ _ _ _ Ef Ec Ev En H)
      as (Hb & _ & G & s2 & H2 & Hs'). subst b s'.
    exists CI, name. split; [done |]. split; [done |]. simpl.
    by apply getGlobalNondet_cases in H2 as [[_ ->] | (_ & _ & _ & _ & -> & _)].
  - unfold runOnInstruction in H. by rewrite bind_gets, Ef, Ec in H.
Qed.

(** C9, as amended (one diagnostic per callee).  A loop turn that deletes a
    call adds its callee to [removed_calls] and writes one line when the
    callee was not in the set, none when it was; over a run the set only
    grows, the lines written so far stay, and as many lines are added as
    callees.  The set is a static of [runOnFunction], shared by all pass
    objects of the process: a run that starts with a new pass object goes on
    from the set the earlier runs left. *)
Theorem diagnostics_once_per_callee :
  (∀ F x s b s', runOnInstruction F x s = Done (b, s') →
     if b
     then ∃ CI name,
            find_inst (st_module s) F x = Some CI
            ∧ classify (st_module s) CI = Eligible name
            ∧ removed_calls (st_static s')
              = {[ name ]} ∪ removed_calls (st_static s)
            ∧ errs (st_static s')
              = errs (st_static s)
                ++ (if decide (name ∈ removed_calls (st_static s)) then []
                    else [diagnostic name (isVoidTy (i_type CI))
                            (_nosym (st_pass s))])
     else st_static s' = st_static s)
  ∧ (∀ order s bs s', runOnFunctions order s = Done (bs, s') → static_rel s s')
  ∧ (∀ p order s bs s',
       runOnFunctions order (with_pass p s) = Done (bs, s') →
       removed_calls (st_static s) ⊆ removed_calls (st_static s')
       ∧ length (errs (st_static s')) + size (removed_calls (st_static s))
         = length (errs (st_static s)) + size (removed_calls (st_static s'))).
Proof.
  assert (Hrun : ∀ order s bs s',
            runOnFunctions order s = Done (bs, s') → static_rel s s').
  { intros order s bs s' H.
    eapply (runOnFunctions_rel (λ _, True) static_rel);
      [apply static_rel_refl | apply static_rel_trans | | exact I | exact H].
    intros F x s0 b s1 _ H1. split; [done |].
    apply runOnInstruction_static in H1. destruct b.
    - destruct H1 as (CI & name & _ & _ & Hst).
      eapply static_rel_trans; [apply (static_rel_reported name CI) |].
      by apply static_rel_eq.
    - subst. apply static_rel_refl. }
  split; [| split; [done |]].
  - intros F x s b s' H. apply runOnInstruction_static in H. destruct b; [| by subst].
    destruct H as (CI & name & Hf & Hc & ->). exists CI, name.
    split; [done |]. split; [done |]. unfold reported.
    case_decide; simpl; [| done]. split; [set_solver | by rewrite app_nil_r].
  - intros p order s bs s' H. apply Hrun in H as [H1 _ H3]. done.
Qed.

(** * The injection at the start of main *)

Lemma wf_main_head m main_fn I1 b bs :
  wf m → m_functions m !! "main" = Some main_fn →
  f_blocks main_fn = (I1 :: b) :: bs →
  (i_id I1 ∉ ids b) ∧ Forall (λ b', i_id I1 ∉ ids b') bs
  ∧ i_id I1 < m_next_id m.
Proof.
  intros Hwf Hm Hb. destruct (Hwf "main") as [Hnd Hlt].
  rewrite (function_insts_main _ _ _ _ _ Hm Hb) in Hnd, Hlt.
  unfold ids in *. rewrite fmap_cons, fmap_app in Hnd.
  apply NoDup_cons in Hnd as [Hn _].
  split; [| split].
  - intros Hin. apply Hn. apply elem_of_app. by left.
  - apply Forall_forall. intros b' Hb' Hin. apply Hn. apply elem_of_app. right.
    apply list_elem_of_fmap in Hin as (i & E & Hi). rewrite E.
    apply list_elem_of_fmap_2. apply list_elem_of_join. eauto.
  - apply Hlt. by left.
Qed.

Lemma getGlobalNondet_main s ty G s' :
  wf (st_module s) →
  added_globals (st_pass s) !! ty = None →
  getGlobalNondet ty s = Done (G, s') →
  let n := m_next_id (st_module s) in
  ∃ vms size_t main_fn main_fn' I1 b bs,
    let CastI := cast_inst n G in
    let CI := init_call vms (S n) n size_t
                (getTypeAllocSize (m_datalayout (st_module s)) ty) (S G)
                (CallAddMetadata main_fn) in
    (vms = hook ∨ _vms (st_pass s) = Some vms)
    ∧ G = length (m_globals (st_module s))
    ∧ m_functions (st_module s) !! "main" = Some main_fn
    ∧ f_blocks main_fn = (I1 :: b) :: bs
    ∧ m_functions (st_module s') !! "main" = Some main_fn'
    ∧ f_blocks main_fn' = (CastI :: CI :: I1 :: b) :: bs
    ∧ (∀ F, function_insts (st_module s') F
            = if decide (F = "main")
              then CastI :: CI :: function_insts (st_module s) F
              else function_insts (st_module s) F)
    ∧ m_next_id (st_module s') = S (S n).
Proof.
  intros Hwf Hmiss H n.
  apply getGlobalNondet_miss in H
    as (vms & m1 & size_t & main_fn & I1 & b & bs & -> & Hvms & Hm1 & Hmain & Hb
        & Hm' & Ha & Hv & Hn & Hst); [| done].
  destruct (wf_main_head _ _ _ _ _ Hwf Hmain Hb) as (HI1b & HI1bs & HI1n).
  fold n in HI1n.
  set (m4 := m_alloc (m_add_global name_global (m_alloc m1))) in *.
  assert (Hmain4 : m_functions m4 !! "main" = Some main_fn).
  { destruct Hm1 as [-> | (fty & _ & ->)]; [done |]. simpl.
    by rewrite lookup_insert_ne. }
  assert (Hfi4 : ∀ F, function_insts m4 F = function_insts (st_module s) F).
  { intros F. destruct Hm1 as [-> | (fty & Hh & ->)]; [done |].
    unfold m4. rewrite function_insts_alloc, function_insts_add_global,
      function_insts_alloc. by rewrite function_insts_declare. }
  assert (Hn4 : m_next_id m4 = S (S n)).
  { destruct Hm1 as [-> | (fty & _ & ->)]; done. }
  set (CastI := cast_inst n (length (m_globals (st_module s)))) in *.
  set (CI := init_call _ _ _ _ _ _ _) in *.
  assert (Hblocks :
    (insert_before CI (i_id I1) <$>
       (insert_before CastI (i_id I1) <$> ((I1 :: b) :: bs)))
    = (CastI :: CI :: I1 :: b) :: bs).
  { rewrite !fmap_cons. simpl. rewrite decide_True by done.
    rewrite (insert_before_notin CastI) by done. simpl.
    rewrite decide_False by (simpl; lia). rewrite decide_True by done.
    rewrite (insert_before_notin CI) by done. f_equal.
    clear -HI1bs. induction bs as [| b' bs IH]; [done |].
    apply Forall_cons in HI1bs as [Hb' Hbs]. rewrite !fmap_cons.
    rewrite (insert_before_notin CastI), (insert_before_notin CI) by done.
    f_equal. by apply IH. }
  exists vms, size_t, main_fn,
    {| f_type := f_type main_fn; f_subprogram := f_subprogram main_fn;
       f_blocks := (CastI :: CI :: I1 :: b) :: bs |}, I1, b, bs.
  simpl. split; [done |]. split; [done |]. split; [done |]. split; [done |].
  assert (Hmain' : m_functions (st_module s') !! "main"
           = Some {| f_type := f_type main_fn; f_subprogram := f_subprogram main_fn;
                     f_blocks := (CastI :: CI :: I1 :: b) :: bs |}).
  { rewrite Hm'. unfold m_insert, set_functions. cbn [m_functions].
    rewrite !lookup_alter_eq, Hmain4. cbn [fmap option_fmap option_map].
    unfold f_insert, set_blocks. cbn [f_blocks f_type f_subprogram].
    rewrite Hb. do 2 f_equal. exact Hblocks. }
  split; [done |]. split; [done |]. split; [| by rewrite Hm'].
  intros F. case_decide as E.
  - subst F. unfold function_insts at 1. rewrite Hmain'. unfold insts. simpl.
    by rewrite (function_insts_main _ _ _ _ _ Hmain Hb).
  - rewrite Hm', !function_insts_insert, !decide_False by done. apply Hfi4.
Qed.

Lemma erase_rauw x y v l : erase x (b_rauw y v l) = b_rauw y v (erase x l).
Proof.
  unfold erase, b_rauw. induction l as [| i l IH]; [done |].
  rewrite fmap_cons. destruct (decide (i_id i = x)) as [E | E].
  - rewrite !filter_cons_False by (simpl; naive_solver). done.
  - rewrite !filter_cons_True by done. rewrite fmap_cons. by f_equal.
Qed.

Lemma erase_here x l1 i l2 :
  i_id i = x → x ∉ ids l1 → x ∉ ids l2 → erase x (l1 ++ i :: l2) = l1 ++ l2.
Proof.
  intros Hi H1 H2. unfold erase. rewrite filter_app, filter_cons_False by naive_solver.
  fold (erase x l1) (erase x l2). by rewrite !erase_notin.
Qed.

Lemma NoDup_ids_split l1 i l2 :
  NoDup (ids (l1 ++ i :: l2)) → (i_id i ∉ ids l1) ∧ (i_id i ∉ ids l2).
Proof.
  unfold ids. rewrite fmap_app, fmap_cons. intros (H1 & H2 & H3)%NoDup_app.
  apply NoDup_cons in H3 as [H3 _]. split; [| done].
  intros Hin. apply (H2 _ Hin). by left.
Qed.

(** C4 (Symbolic policy).  For a call [CI] of [F] taken for deletion, with
    a non-void result of type [T], one loop turn under the Symbolic policy
    requests the global [G] of [T] from the cache, puts a load of [G] where
    [CI] stood (right in front of it, then [CI] is erased), and redirects
    every use of [CI]'s result, in the whole module, to the load: no operand
    names [CI] afterwards and [CI] is gone from [F]. *)
Theorem symbolic_policy_rewrite F x s CI name b s' :
  wf (st_module s) →
  find_inst (st_module s) F x = Some CI →
  classify (st_module s) CI = Eligible name →
  isVoidTy (i_type CI) = false → _nosym (st_pass s) = false →
  runOnInstruction F x s = Done (b, s') →
  ∃ G s2 l1 l2,
    let LI := load_inst (m_next_id (st_module s2)) (i_type CI) G in
    b = true
    ∧ getGlobalNondet (i_type CI)
        (set_module (m_add_global name_global) (reported name CI s))
      = Done (G, s2)
    ∧ added_globals (st_pass s') !! i_type CI = Some G
    ∧ function_insts (st_module s2) F = l1 ++ CI :: l2
    ∧ function_insts (st_module s') F = b_rauw x (VInstr (i_id LI)) (l1 ++ LI :: l2)
    ∧ (∀ F', F' ≠ F →
         function_insts (st_module s') F'
         = b_rauw x (VInstr (i_id LI)) (function_insts (st_module s2) F'))
    ∧ (∀ F' i, i ∈ function_insts (st_module s') F' → ¬ uses x i)
    ∧ x ∉ ids (function_insts (st_module s') F).
Proof.
  intros Hwf Hf Hc Hv Hn H.
  pose proof (find_inst_Some _ _ _ _ Hf) as [HCI Hx].
  destruct (runOnInstruction_symbolic _ _ _ _ _ _ _ Hf Hc Hv Hn H)
    as (-> & _ & G & s2 & H2 & ->).
  set (s1 := set_module _ (reported name CI s)) in *.
  assert (Hm1 : ∀ F', function_insts (st_module s1) F' = function_insts (st_module s) F').
  { intros F'. unfold s1. simpl. by rewrite function_insts_add_global, reported_module. }
  assert (Hwf1 : wf (st_module s1)).
  { intros F'. rewrite Hm1. unfold s1. simpl. rewrite reported_module. apply Hwf. }
  assert (Hn1 : m_next_id (st_module s1) = m_next_id (st_module s)).
  { unfold s1. simpl. by rewrite reported_module. }
  (* the module after the request: main may have grown at its start *)
  assert (∃ pre, (∀ F', function_insts (st_module s2) F'
                        = if decide (F' = "main")
                          then pre ++ function_insts (st_module s) F'
                          else function_insts (st_module s) F')
                 ∧ Forall (λ i, m_next_id (st_module s) ≤ i_id i < m_next_id (st_module s2)) pre
                 ∧ NoDup (ids pre)
                 ∧ m_next_id (st_module s) ≤ m_next_id (st_module s2)
                 ∧ added_globals (st_pass s2) !! i_type CI = Some G)
    as (pre & Hfi2 & Hpre & Hndpre & Hnx2 & Ha2).
  { destruct (added_globals (st_pass s1) !! i_type CI) as [G0 |] eqn:Ea.
    - rewrite (getGlobalNondet_hit _ _ _ Ea) in H2. injection H2 as <- <-.
      exists []. split; [| split; [done | split; [apply NoDup_nil_2 | split; [lia | done]]]].
      intros F'. rewrite Hm1. by case_decide.
    - pose proof H2 as H2'.
      apply getGlobalNondet_main in H2
        as (vms & size_t & main_fn & main_fn' & I1 & b0 & bs & _ & _ & _ & _ & _ & _
            & Hfi & Hnx); [| done | done].
      apply getGlobalNondet_cases in H2' as [[Hhit _] | (_ & -> & _ & Ha & _)];
        [congruence |].
      rewrite Hn1 in *. eexists [_; _]. split; [| split; [| split; [| split]]].
      + intros F'. rewrite Hfi, Hm1. by case_decide.
      + repeat constructor; simpl; lia.
      + unfold ids. simpl. apply NoDup_cons. split; [| apply NoDup_singleton].
        intros ?%list_elem_of_singleton. lia.
      + lia.
      + rewrite Ha. apply lookup_insert_eq. }
  destruct (Hwf F) as [Hnd Hlt]. pose proof (Hlt _ HCI) as HxN. rewrite Hx in HxN.
  assert (∃ l1 l2, function_insts (st_module s2) F = l1 ++ CI :: l2
                   ∧ (x ∉ ids l1) ∧ (x ∉ ids l2)) as (l1 & l2 & Hl & Hx1 & Hx2).
  { apply list_elem_of_split in HCI as (k1 & k2 & Hk).
    rewrite Hk in Hnd. apply NoDup_ids_split in Hnd as [Hk1 Hk2]. rewrite Hx in *.
    rewrite Hfi2, Hk. case_decide.
    - exists (pre ++ k1), k2. rewrite <- app_assoc. split; [done |]. split; [| done].
      unfold ids. rewrite fmap_app. intros [Hin | Hin]%elem_of_app; [| done].
      apply list_elem_of_fmap in Hin as (i & E & Hi).
      rewrite Forall_forall in Hpre. specialize (Hpre _ Hi). lia.
    - by exists k1, k2. }
  set (n2 := m_next_id (st_module s2)) in *.
  set (LI := load_inst n2 (i_type CI) G).
  exists G, s2, l1, l2. simpl. fold n2 LI.
  split; [done |]. split; [done |]. split; [done |]. split; [done |].
  assert (HF : function_insts
                 (m_erase F (i_id CI)
                    (m_rauw (i_id CI) (VInstr n2)
                       (m_insert F LI (i_id CI) (m_alloc (st_module s2))))) F
               = b_rauw x (VInstr n2) (l1 ++ LI :: l2)).
  { rewrite function_insts_erase, decide_True by done.
    rewrite function_insts_rauw, function_insts_insert, decide_True by done.
    rewrite function_insts_alloc, Hl, Hx.
    rewrite (insert_before_here LI x l1 CI l2) by done.
    rewrite erase_rauw. f_equal.
    change (l1 ++ LI :: CI :: l2) with (l1 ++ [LI] ++ CI :: l2).
    rewrite app_assoc, erase_here; [by rewrite <- app_assoc | done | | done].
    unfold ids. rewrite fmap_app. intros [Hin | Hin]%elem_of_app; [done |].
    apply list_elem_of_singleton in Hin. simpl in Hin. unfold n2 in Hin. lia. }
  split; [done |]. split; [| split].
  - intros F' Hne. rewrite function_insts_erase, decide_False by done.
    rewrite function_insts_rauw, function_insts_insert, decide_False by done.
    by rewrite function_insts_alloc, Hx.
  - intros F' i. rewrite function_insts_erase. intros Hi.
    assert (i ∈ function_insts
              (m_rauw (i_id CI) (VInstr n2)
                 (m_insert F LI (i_id CI) (m_alloc (st_module s2)))) F') as Hi'.
    { case_decide; [by apply elem_of_erase in Hi as [? _] | done]. }
    rewrite Hx in Hi'. eapply rauw_no_use; [| exact Hi'].
    intros [= E]. unfold n2 in E. lia.
  - rewrite HF, ids_rauw. unfold ids. rewrite fmap_app, fmap_cons.
    intros [Hin | [Hin | Hin]%elem_of_cons]%elem_of_app; [done | | done].
    simpl in Hin. unfold n2 in Hin. lia.
Qed.

(** * Injected initialisations come first *)

Section inits_first.
Context (N : nat).
Implicit Types (l : list Instruction).

Lemma inits_first_none l :
  Forall (λ i, ¬ injected_init N i) l → inits_first N l.
Proof. intros H. by exists [], l. Qed.

Lemma inits_first_cons a l :
  injected_init N a → inits_first N l → inits_first N (a :: l).
Proof.
  intros Ha (pre & rest & -> & Hp & Hr). exists (a :: pre), rest.
  split; [done |]. split; [by constructor | done].
Qed.

Lemma inits_first_app l1 l :
  Forall (injected_init N) l1 → inits_first N l → inits_first N (l1 ++ l).
Proof.
  induction 1 as [| a l1 Ha _ IH]; [done |]. intros Hl.
  simpl. apply inits_first_cons; auto.
Qed.

Lemma inits_first_drop l1 l : inits_first N (l1 ++ l) → inits_first N l.
Proof.
  induction l1 as [| a l1 IH]; [done |].
  intros (pre & rest & E & Hp & Hr). apply IH. destruct pre as [| a' pre].
  - simpl in E. subst rest. apply Forall_cons in Hr as [_ Hr].
    by apply inits_first_none.
  - injection E as <- E. apply Forall_cons in Hp as [_ Hp]. by exists pre, rest.
Qed.

Lemma inits_first_filter (Q : Instruction → Prop) `{∀ i, Decision (Q i)} l :
  inits_first N l → inits_first N (filter Q l).
Proof.
  intros (pre & rest & -> & Hp & Hr). exists (filter Q pre), (filter Q rest).
  split; [by rewrite filter_app |].
  split; apply Forall_forall; intros i [_ Hi]%list_elem_of_filter;
    [rewrite Forall_forall in Hp | rewrite Forall_forall in Hr]; auto.
Qed.

Lemma inits_first_fmap (f : Instruction → Instruction) l :
  (∀ i, injected_init N (f i) ↔ injected_init N i) →
  inits_first N l → inits_first N (f <$> l).
Proof.
  intros Hf (pre & rest & -> & Hp & Hr). exists (f <$> pre), (f <$> rest).
  split; [by rewrite fmap_app |].
  split; apply Forall_fmap; (eapply Forall_impl; [done |]); simpl;
    intros i; rewrite Hf; done.
Qed.

Lemma inits_first_insert new x l :
  ¬ injected_init N new →
  (∀ i, i ∈ l → i_id i = x → ¬ injected_init N i) →
  inits_first N l → inits_first N (insert_before new x l).
Proof.
  intros Hnew Hx (pre & rest & -> & Hp & Hr).
  exists pre, (insert_before new x rest). split; [| split; [done |]].
  - rewrite insert_before_app. f_equal. apply insert_before_notin.
    intros (i & E & Hi)%list_elem_of_fmap.
    apply (Hx i); [apply elem_of_app; by left | done |].
    rewrite Forall_forall in Hp. by apply Hp.
  - apply Forall_forall. intros i [Hi | [-> _]]%elem_of_insert_before; [| done].
    rewrite Forall_forall in Hr. by apply Hr.
Qed.

Lemma inits_first_precedes l c j :
    inits_first N l → c ∈ l → j ∈ l → injected_init N c → i_id j < N →
    precedes l c j.
  Proof.
    intros (pre & rest & -> & Hp & Hr) Hc Hj HPc Hjn.
    rewrite Forall_forall in Hp, Hr.
    apply elem_of_app in Hc as [Hc | Hc]; [| by destruct (Hr _ Hc)].
    apply elem_of_app in Hj as [Hj | Hj].
    { destruct (Hp _ Hj) as [? _]. lia. }
    apply list_elem_of_split in Hc as (p1 & p2 & ->).
    apply list_elem_of_split in Hj as (r1 & r2 & ->).
    exists p1, (p2 ++ r1), r2. by rewrite <- !app_assoc.
  Qed.
End inits_first.

Lemma injected_init_subst N x v i :
  substitute v → injected_init N (subst_inst x v i) ↔ injected_init N i.
Proof. intros Hv. unfold injected_init. by rewrite is_init_subst. Qed.

Lemma eligible_not_init m i name : classify m i = Eligible name → ¬ is_init i.
Proof. intros Hc Hi. rewrite classify_injected in Hc by (by right). done. Qed.

Lemma is_load_not_init i : is_load i → ¬ is_init i.
Proof.
  unfold is_load, is_init. intros H1 H2.
  destruct (i_kind i) as [[[] | | |] | [[] | | |] | [[] | | |] |]; done.
Qed.

Lemma edit_inits_first N m m' :
  edit N m m' → wf m →
  inits_first N (function_insts m "main") →
  inits_first N (function_insts m' "main").
Proof.
  intros [m1 m2 Hb | F x m1 Hx] Hwf Hinv.
  - destruct Hb as [g m1 | m1 | ty m1 Hn | F new x m1 Hf Hl Hx
                    | new x l1 ix l2 m1 Hf Hi Hm Hx Hl1
                    | x v F CI name m1 Hv HCI Hx Hc].
    + done.
    + done.
    + by rewrite function_insts_declare.
    + rewrite function_insts_insert. case_decide as E; [| done]. subst F.
      apply inits_first_insert; [| | done].
      * intros [_ Hi]. by apply (is_load_not_init new).
      * intros i Hi Hid [_ Hin]. destruct (Hx i Hi Hid) as [name Hc].
        by apply (eligible_not_init _ _ _ Hc).
    + rewrite function_insts_insert, decide_True by done.
      destruct (Hwf "main") as [Hnd _]. rewrite Hm in Hnd, Hinv |- *.
      apply NoDup_ids_split in Hnd as [H1 H2].
      rewrite insert_before_here by congruence.
      apply inits_first_app; [done |]. apply inits_first_cons.
      * destruct Hf as (? & _). by split.
      * by eapply inits_first_drop.
    + rewrite function_insts_rauw. unfold b_rauw. apply inits_first_fmap; [| done].
      intros i. by apply injected_init_subst.
  - rewrite function_insts_erase. case_decide; [| done].
    unfold erase. by apply inits_first_filter.
Qed.

Lemma edits_inits_first N m m' :
  rtc (edit N) m m' → wf m →
  inits_first N (function_insts m "main") →
  inits_first N (function_insts m' "main").
Proof.
  induction 1 as [| m1 m2 m3 H _ IH]; [done |]. intros Hwf Hinv.
  apply IH; [by eapply edit_wf | by eapply edit_inits_first].
Qed.

(** C3 (single initialisation).  A request that creates a global inserts
    exactly the pointer cast of the new global and one call to the
    make-symbolic hook on that cast, in front of the first instruction of
    the first block of [main], and changes no other function; a request for
    a cached type inserts nothing.  After a whole run the injected casts and
    hook calls come first in [main]: each precedes every instruction that
    was in the module before the run. *)
Theorem single_initialization :
  (∀ s ty G s',
     wf (st_module s) → added_globals (st_pass s) !! ty = None →
     getGlobalNondet ty s = Done (G, s') →
     let n := m_next_id (st_module s) in
     ∃ vms size_t main_fn main_fn' I1 b bs,
       let CastI := cast_inst n G in
       let CI := init_call vms (S n) n size_t
                   (getTypeAllocSize (m_datalayout (st_module s)) ty) (S G)
                   (CallAddMetadata main_fn) in
       (vms = hook ∨ _vms (st_pass s) = Some vms)
       ∧ G = length (m_globals (st_module s))
       ∧ m_functions (st_module s) !! "main" = Some main_fn
       ∧ f_blocks main_fn = (I1 :: b) :: bs
       ∧ m_functions (st_module s') !! "main" = Some main_fn'
       ∧ f_blocks main_fn' = (CastI :: CI :: I1 :: b) :: bs
       ∧ (∀ F, function_insts (st_module s') F
               = if decide (F = "main")
                 then CastI :: CI :: function_insts (st_module s) F
                 else function_insts (st_module s) F)
       ∧ m_next_id (st_module s') = S (S n))
  ∧ (∀ s ty G, added_globals (st_pass s) !! ty = Some G →
               getGlobalNondet ty s = Done (G, s))
  ∧ (∀ order s bs s',
       wf (st_module s) → pass_ok (st_pass s) →
       runOnFunctions order s = Done (bs, s') →
       let N := m_next_id (st_module s) in
       let main' := function_insts (st_module s') "main" in
       inits_first N main'
       ∧ ∀ c j, c ∈ main' → j ∈ main' →
                is_init c → N ≤ i_id c → i_id j < N →
                precedes main' c j).
Proof.
  split; [| split].
  - intros s ty G s'. apply getGlobalNondet_main.
  - intros s ty G. apply getGlobalNondet_hit.
  - intros order s bs s' Hwf Hok H N main'.
    destruct (runOnFunctions_spec (λ _, False) _ _ _ _ Hwf Hok H) as [[He _ _ _] _].
    assert (Hinv : inits_first N main').
    { eapply edits_inits_first; [exact He | done |].
      apply inits_first_none, Forall_forall. intros i Hi [HN _].
      destruct (Hwf "main") as [_ Hlt]. specialize (Hlt _ Hi). unfold N in HN. lia. }
    split; [done |]. intros c j Hc Hj Hcn HcN HjN.
    by apply (inits_first_precedes N).
Qed.

(** * What a run leaves of the instructions it does not delete *)

Section inst_rel.
Context (E : nat → Prop).









End inst_rel.





Lemma wf_intro m :
  map_Forall (λ _ fn, wf_function (m_next_id m) fn) (m_functions m) → wf m.
Proof.
  intros H F. unfold function_insts.
  destruct (m_functions m !! F) as [fn |] eqn:E.
  - destruct (H F fn E) as [H1 H2]. split; [done |]. by apply Forall_forall.
  - split; [apply NoDup_nil_2 | by intros i ?%elem_of_nil].
Qed.

Lemma covers_intro order m :
  map_Forall (λ F fn, insts fn ≠ [] → F ∈ order) (m_functions m) →
  covers order m.
Proof.
  intros H F. unfold function_insts.
  destruct (m_functions m !! F) as [fn |] eqn:E; [| done]. by apply (H F fn).
Qed.

(** C7 (idempotence).  After a full run the pass changes nothing any more:
    run again over any functions, with the same pass object or with another
    one, [runOnFunction] returns false for every function and leaves the
    state as it is; the calls to the make-symbolic hook that the first run
    injected are never taken for deletion. *)
Theorem pass_idempotent order s bs s1 :
  wf (st_module s) → pass_ok (st_pass s) → covers order (st_module s) →
  runOnFunctions order s = Done (bs, s1) →
  (∀ order', runOnFunctions order' s1
             = Done (replicate (length order') false, s1))
  ∧ (∀ p F, runOnFunction F (with_pass p s1) = Done (false, with_pass p s1))
  ∧ (∀ p order', runOnFunctions order' (with_pass p s1)
                 = Done (replicate (length order') false, with_pass p s1))
  ∧ (∀ i, callee_name i = Some hook → classify (st_module s1) i = Skip).
Proof.
  intros Hwf Hok Hcov H.
  pose proof (run_leaves_no_call _ _ _ _ Hwf Hok Hcov H) as Hskip.
  split; [| split; [| split]].
  - intros order'. by apply runOnFunctions_skip.
  - intros p F. apply runOnFunction_skip. intros i. apply Hskip.
  - intros p order'. by apply runOnFunctions_skip.
  - intros i. apply classify_hook.
Qed.

(** * A module to run the pass on *)

Lemma ex_wf : wf ex_module.
Proof. apply wf_intro. refine (bool_decide_unpack _ _). by vm_compute. Defined.

Lemma ex_covers : covers ex_order ex_module.
Proof. apply covers_intro. refine (bool_decide_unpack _ _). by vm_compute. Defined.

(** * The theorems at work on [ex_module] *)


Lemma pass_idempotent_witness :
  runOnFunctions ex_order (snd (ex_run new_DeleteUndefined))
  = Done ([false; false; false], snd (ex_run new_DeleteUndefined))
  ∧ runOnFunction "main"
      (with_pass new_DeleteUndefinedNoSym (snd (ex_run new_DeleteUndefined)))
    = Done (false,
            with_pass new_DeleteUndefinedNoSym (snd (ex_run new_DeleteUndefined))).
Proof.
  destruct (pass_idempotent ex_order ex_symbolic
              (fst (ex_run new_DeleteUndefined)) (snd (ex_run new_DeleteUndefined)))
    as (H1 & H2 & _).
  - exact ex_wf.
  - by left.
  - exact ex_covers.
  - by vm_compute.
  - split; [apply (H1 ex_order) | apply H2].
Defined.


Lemma single_initialization_witness :
  (∃ G s', getGlobalNondet i32 ex_symbolic = Done (G, s')
           ∧ function_insts (st_module s') "main"
             = cast_inst 8 0
               :: init_call hook 9 8 (IntegerTy 64) 4 1 (Some (3%N, 0%N))
               :: function_insts ex_module "main"
           ∧ function_insts (st_module s') "f" = function_insts ex_module "f"
           ∧ getGlobalNondet i32 s' = Done (G, s'))
  ∧ inits_first 8
      (function_insts (st_module (snd (ex_run new_DeleteUndefined))) "main").
Proof.
  destruct single_initialization as (Ha & Hb & Hc). split.
  - pose (r := result (getGlobalNondet i32 ex_symbolic) (0, ex_symbolic)).
    assert (Hr : getGlobalNondet i32 ex_symbolic = Done (fst r, snd r))
      by (by vm_compute).
    exists (fst r), (snd r). split; [done |].
    destruct (Ha ex_symbolic i32 (fst r) (snd r) ex_wf eq_refl Hr)
      as (vms & size_t & main_fn & main_fn' & I1 & b & bs & Hvms & HG & Hm & Hb0
          & Hm' & Hb' & Hfi & Hn).
    split; [| split].
    + assert (Hmain : function_insts (st_module (snd r)) "main"
                      = insts main_fn').
      { unfold function_insts. by rewrite Hm'. }
      rewrite Hmain. by vm_compute in Hm'; injection Hm' as <-.
    + by rewrite (Hfi "f").
    + apply Hb. by vm_compute.
  - apply (Hc ex_order ex_symbolic (fst (ex_run new_DeleteUndefined))).
    + exact ex_wf.
    + by left.
    + by vm_compute.
Defined.

Lemma symbolic_policy_rewrite_witness :
  find_inst ex_module "f" 3 = Some foo_in_f
  ∧ classify ex_module foo_in_f = Eligible "foo"
  ∧ runOnInstruction "f" 3 ex_symbolic = Done ex_after_first
  ∧ fst ex_after_first = true
  ∧ (3 ∉ ids (function_insts (st_module (snd ex_after_first)) "f"))
  ∧ ∀ F i, i ∈ function_insts (st_module (snd ex_after_first)) F → ¬ uses 3 i.
Proof.
  split; [by vm_compute |]. split; [by vm_compute |]. split; [by vm_compute |].
  destruct (symbolic_policy_rewrite "f" 3 ex_symbolic foo_in_f "foo"
              (fst ex_after_first) (snd ex_after_first))
    as (G & s2 & l1 & l2 & Hb & _ & _ & _ & _ & _ & Huses & Hgone).
  - exact ex_wf.
  - by vm_compute.
  - by vm_compute.
  - reflexivity.
  - reflexivity.
  - by vm_compute.
  - done.
Defined.

Lemma zero_policy_rewrite_witness :
  find_inst ex_module "main" 0 = Some bar_in_main
  ∧ classify ex_module bar_in_main = Eligible "bar"
  ∧ (∃ s', runOnInstruction "main" 0 ex_zero = Done (true, s')
           ∧ function_insts (st_module s') "main"
             = [ call_fn 1 VoidTy "free" [VConst (CNull Int8PtrTy)];
                 inst 2 VoidTy (Other "ret" [VConst (CInt i32 0)]) ]
           ∧ m_globals (st_module s') = [])
  ∧ zero_rel ex_zero (snd (ex_run new_DeleteUndefinedNoSym)).
Proof.
  split; [by vm_compute |]. split; [by vm_compute |].
  destruct (zero_policy_rewrite "main" 0 ex_zero bar_in_main "bar")
    as (Hz & _ & Hrun); [by vm_compute | by vm_compute |].
  split.
  - destruct (Hz eq_refl eq_refl) as (s' & Hs' & Hm & _ & Hfi & _).
    exists s'. split; [done |]. split.
    + rewrite Hfi. by vm_compute.
    + rewrite Hm. done.
  - apply (Hrun eq_refl ex_order (fst (ex_run new_DeleteUndefinedNoSym))).
    by vm_compute.
Defined.





(** C9, the counterexample.  A first pass object deletes the calls of [f],
    that to [bar] among them, and reports their callees; a new pass object
    then deletes the call to [bar] in [main]: it starts with [bar] in the
    set and writes nothing. *)
Lemma reported_set_outlives_pass :
  runOnFunction "f" ex_zero = Done ex_first_run
  ∧ st_pass (with_pass new_DeleteUndefinedNoSym (snd ex_first_run))
    = new_DeleteUndefinedNoSym
  ∧ "bar" ∈ removed_calls
              (st_static (with_pass new_DeleteUndefinedNoSym (snd ex_first_run)))
  ∧ runOnFunction "main" (with_pass new_DeleteUndefinedNoSym (snd ex_first_run))
    = Done ex_second_run
  ∧ fst ex_second_run = true
  ∧ function_insts (st_module (snd ex_second_run)) "main"
    = [ call_fn 1 VoidTy "free" [VConst (CNull Int8PtrTy)];
        inst 2 VoidTy (Other "ret" [VConst (CInt i32 0)]) ]
  ∧ errs (st_static (snd ex_second_run)) = errs (st_static (snd ex_first_run)).
Proof.
  split; [by vm_compute |]. split; [by vm_compute |].
  split; [refine (bool_decide_unpack _ _); by vm_compute |].
  split; [by vm_compute |]. split; [by vm_compute |]. split; by vm_compute.
Qed.

Lemma diagnostics_once_per_callee_witness :
  static_rel ex_zero (snd (ex_run new_DeleteUndefinedNoSym))
  ∧ errs (st_static (snd (ex_run new_DeleteUndefinedNoSym)))
    = [ diagnostic "foo" false true; diagnostic "bar" false true;
        diagnostic "log_undefined" true true ].
Proof.
  destruct diagnostics_once_per_callee as (_ & H & _). split.
  - apply (H ex_order ex_zero (fst (ex_run new_DeleteUndefinedNoSym))).
    by vm_compute.
  - by vm_compute.
Defined.

Lemma name_string_per_rewrite_witness :
  find_inst (st_module (snd ex_after_first)) "f" 6 = Some (call_fn 6 i32 "foo" [])
  ∧ added_globals (st_pass (snd ex_after_first)) !! i32 = Some 1
  ∧ length (name_strings (st_module (snd ex_after_first))) = 2
  ∧ ∃ s', runOnInstruction "f" 6 (snd ex_after_first) = Done (true, s')
          ∧ length (name_strings (st_module s')) = 3
          ∧ length (nondet_globals (st_module s')) = 1.
Proof.
  split; [by vm_compute |]. split; [by vm_compute |]. split; [by vm_compute |].
  pose (r := result (runOnInstruction "f" 6 (snd ex_after_first)) (false, ex_symbolic)).
  assert (Hr : runOnInstruction "f" 6 (snd ex_after_first) = Done (true, snd r))
    by (by vm_compute).
  exists (snd r). split; [done |].
  destruct (name_string_per_rewrite "f" 6 (snd ex_after_first)
              (call_fn 6 i32 "foo" []) "foo" true (snd r)) as [_ Hlen].
  - by vm_compute.
  - by vm_compute.
  - reflexivity.
  - reflexivity.
  - exact Hr.
  - split; [rewrite Hlen |]; by vm_compute.
Defined.

(** * The helpers of the pass *)

(** X1.  [array_match] is membership in the array: the whole name, case and all,
    has to be equal to an entry. *)
Theorem array_match_elem_of name array :
  array_match name array = true ↔ name ∈ array.
Proof.
  induction array as [| curr rest IH]; simpl.
  - split; [done | by intros ?%elem_of_nil].
  - rewrite elem_of_cons. destruct (String.eqb name curr) eqn:E.
    + apply String.eqb_eq in E. naive_solver.
    + apply String.eqb_neq in E. naive_solver.
Qed.

Lemma get_size_t_eq s :
  get_size_t s
  = Done (size_t_of s,
          match _size_t_Ty (st_pass s) with
          | Some _ => s
          | None =>
              set_pass (λ p,
                {| _vms := _vms p; _size_t_Ty := Some (size_t_of s);
                   _nosym := _nosym p; added_globals := added_globals p |}) s
          end).
Proof.
  unfold get_size_t, size_t_of. rewrite bind_gets.
  destruct (_size_t_Ty (st_pass s)) as [t |] eqn:E; [done |].
  by rewrite bind_gets, bind_modify.
Qed.

(** X2.  [get_size_t] computes its answer once, from the pointer size of the data
    layout: 64 bits when a pointer has more than 32 bits, 32 bits otherwise,
    a pointer of exactly 32 bits included.  The answer is kept in the pass
    object, the module is not changed, and every later call answers the same
    whatever the data layout of the module it is then given. *)
Theorem get_size_t_cached s :
  ∃ t s',
    get_size_t s = Done (t, s')
    ∧ match _size_t_Ty (st_pass s) with
      | Some t0 => t = t0 ∧ s' = s
      | None =>
          t = (if (32 <? getPointerSizeInBits (m_datalayout (st_module s)))%N
               then IntegerTy 64 else IntegerTy 32)
      end
    ∧ st_module s' = st_module s ∧ st_static s' = st_static s
    ∧ _size_t_Ty (st_pass s') = Some t
    ∧ ∀ m, get_size_t (set_module (λ _, m) s')
           = Done (t, set_module (λ _, m) s').
Proof.
  eexists _, _. split; [apply get_size_t_eq |].
  unfold size_t_of. destruct (_size_t_Ty (st_pass s)) as [t |] eqn:E.
  - repeat split; try done.
    all: intros m; rewrite get_size_t_eq; unfold size_t_of; simpl; by rewrite E.
  - repeat split; try done.
    all: intros m; by rewrite get_size_t_eq.
Qed.

Lemma get_verifier_make_symbolic_eq s :
  _vms (st_pass s) = None →
  let s1 := match _size_t_Ty (st_pass s) with
            | Some _ => s
            | None =>
                set_pass (λ p,
                  {| _vms := _vms p; _size_t_Ty := Some (size_t_of s);
                     _nosym := _nosym p; added_globals := added_globals p |}) s
            end in
  let cache := set_pass (λ p,
                 {| _vms := Some hook; _size_t_Ty := _size_t_Ty p;
                    _nosym := _nosym p; added_globals := added_globals p |}) in
  get_verifier_make_symbolic s
  = match m_functions (st_module s) !! hook with
    | None =>
        Done (hook,
              cache (set_module (m_declare hook (hook_type (size_t_of s))) s1))
    | Some fn =>
        if decide (f_type fn = hook_type (size_t_of s))
        then Done (hook, cache s1)
        else AssertionFailed cast_failed
    end.
Proof.
  intros Hv. simpl. unfold get_verifier_make_symbolic.
  rewrite bind_gets, Hv, (bind_eq _ _ _ _ _ (get_size_t_eq s)).
  unfold getOrInsertFunction. rewrite bind_assoc, bind_gets. fold hook.
  fold (hook_type (size_t_of s)).
  assert (Hm : ∀ s1, s1 = match _size_t_Ty (st_pass s) with
                          | Some _ => s
                          | None =>
                              set_pass (λ p,
                                {| _vms := _vms p;
                                   _size_t_Ty := Some (size_t_of s);
                                   _nosym := _nosym p;
                                   added_globals := added_globals p |}) s
                          end → st_module s1 = st_module s).
  { intros s1 ->. by destruct (_size_t_Ty (st_pass s)). }
  rewrite (Hm _ eq_refl).
  destruct (m_functions (st_module s) !! hook) as [fn |].
  - case_decide; [| done]. by rewrite bind_ret, bind_modify.
  - by rewrite bind_assoc, bind_modify, bind_ret, bind_modify.
Qed.


(** X4.  [get_verifier_make_symbolic], asked for the first time in a module that
    has a function of the hook's name with another prototype: what
    [getOrInsertFunction] answers is a cast, not a function, and
    [cast<Function>] fails its assertion. *)
Theorem make_symbolic_hook_mismatch s fn :
  _vms (st_pass s) = None →
  m_functions (st_module s) !! hook = Some fn →
  f_type fn ≠ hook_type (size_t_of s) →
  get_verifier_make_symbolic s = AssertionFailed cast_failed.
Proof.
  intros Hv Hfn Hty. rewrite (get_verifier_make_symbolic_eq s Hv), Hfn.
  by rewrite decide_False.
Qed.

Lemma stripPointerCasts_casts ts c :
  stripPointerCasts_const (casts ts c) = stripPointerCasts_const c.
Proof. induction ts as [| t ts IH]; [done | by simpl]. Qed.

(** X5.  A call through pointer casts of a function, however many, is classified
    as the call of the function itself: when the function is to be deleted,
    so is the call through the casts. *)
Theorem classify_through_casts m ts c id ty args dl :
  classify m {| i_id := id; i_type := ty;
                i_kind := Call (VConst (casts ts c)) args; i_debugloc := dl |}
  = classify m {| i_id := id; i_type := ty;
                  i_kind := Call (VConst c) args; i_debugloc := dl |}.
Proof. unfold classify. simpl. by rewrite stripPointerCasts_casts. Qed.

(** * What [runOnFunction] returns *)

Lemma runOnInstruction_flag F x s b s' :
  runOnInstruction F x s = Done (b, s') →
  if b
  then ∃ CI name, find_inst (st_module s) F x = Some CI
                  ∧ classify (st_module s) CI = Eligible name
  else s' = s
       ∧ ∀ CI, find_inst (st_module s) F x = Some CI →
               classify (st_module s) CI = Skip.
Proof.
  intros H. pose proof (runOnInstruction_static _ _ _ _ _ H) as Hs.
  destruct b.
  - destruct Hs as (CI & name & ? & ? & _). eauto.
  - subst s'. split; [done |]. intros CI Hf.
    destruct (classify (st_module s) CI) as [| name |] eqn:Ec; [done | |].
    + rewrite (runOnInstruction_eligible _ _ _ _ _ Hf Ec) in H.
      apply bind_Done in H as (? & ? & _ & H).
      apply bind_Done in H as (? & ? & _ & H). by injection H.
    + unfold runOnInstruction in H. by rewrite bind_gets, Hf, Ec in H.
Qed.






(** * Runs that complete *)

Section completes.
Context (P : State → Prop).
Context (Hstep : ∀ F x s, P s →
             ∃ b s', runOnInstruction F x s = Done (b, s') ∧ P s').



End completes.




(** X8.  The loop turn of a call to a function without a name fails the assertion
    [callee->hasName()], under both policies and whether the function has a
    body or not: the assertion comes before the test for a declaration. *)
Theorem unnamed_callee_asserts F x s CI fn :
  find_inst (st_module s) F x = Some CI →
  callee_name CI = Some "" →
  m_functions (st_module s) !! "" = Some fn →
  classify (st_module s) CI = NoName
  ∧ runOnInstruction F x s = AssertionFailed "callee->hasName()".
Proof.
  intros Hf Hc Hfn.
  assert (Ec : classify (st_module s) CI = NoName).
  { rewrite classify_alt, Hc. unfold declared. by rewrite Hfn. }
  split; [done |]. unfold runOnInstruction. by rewrite bind_gets, Hf, Ec.
Qed.

(** * What a run leaves of the module *)

Lemma same_functions_refl m : same_functions m m.
Proof. split; [done | done | by left]. Qed.

Lemma same_functions_trans m1 m2 m3 :
  same_functions m1 m2 → same_functions m2 m3 → same_functions m1 m3.
Proof.
  intros [Hd1 Ho1 Hn1] [Hd2 Ho2 Hn2]. split; [congruence | |].
  - intros G HG. rewrite <- (Ho1 G HG). apply Ho2.
    pose proof (Ho1 G HG) as E. unfold signature_of in E.
    destruct HG as [fn HG]. rewrite HG in E.
    by destruct (m_functions m2 !! G).
  - intros G HG. destruct (Hn1 G HG) as [H2 | [-> [ty H2]]]; [by apply Hn2 |].
    right. split; [done |]. exists ty. rewrite <- H2. apply Ho2.
    unfold signature_of in H2. by destruct (m_functions m2 !! hook).
Qed.

Lemma same_functions_eq m m' :
  m_datalayout m' = m_datalayout m → m_functions m' = m_functions m →
  same_functions m m'.
Proof.
  intros Hd Hf. split; [done | |]; unfold signature_of; rewrite Hf; auto.
Qed.

Lemma same_functions_alter (f : Function → Function) F m :
  (∀ fn, signature (f fn) = signature fn) →
  same_functions m (set_functions (alter f F) m).
Proof.
  intros Hf. split; [done | |]; unfold signature_of; simpl; intros G HG.
  - rewrite lookup_alter. case_decide as E; [| done]. subst G.
    destruct (m_functions m !! F); [| done]. simpl. by rewrite Hf.
  - left. rewrite lookup_alter. case_decide as E; [| done]. subst G.
    by rewrite HG.
Qed.

Lemma same_functions_fmap (f : Function → Function) m :
  (∀ fn, signature (f fn) = signature fn) →
  same_functions m (set_functions (λ fns : gmap string Function, f <$> fns) m).
Proof.
  intros Hf. split; [done | |]; unfold signature_of; simpl; intros G HG.
  - rewrite lookup_fmap. destruct (m_functions m !! G); [| done].
    simpl. by rewrite Hf.
  - left. by rewrite lookup_fmap, HG.
Qed.

Lemma signature_set_blocks (f : list BasicBlock → list BasicBlock) fn :
  length (f (f_blocks fn)) = length (f_blocks fn) →
  signature (set_blocks f fn) = signature fn.
Proof. intros H. unfold signature. simpl. by rewrite H. Qed.

Lemma build_same N m m' : build N m m' → same_functions m m'.
Proof.
  destruct 1.
  - by apply same_functions_eq.
  - by apply same_functions_eq.
  - split; [done | |]; unfold signature_of; simpl; intros G HG.
    + rewrite lookup_insert_ne; [done |]. intros <-.
      destruct HG as [fn HG]. congruence.
    + destruct (decide (G = hook)) as [-> | Hne].
      * right. split; [done |]. exists ty. by rewrite lookup_insert_eq.
      * left. by rewrite lookup_insert_ne.
  - apply same_functions_alter. intros fn.
    apply signature_set_blocks, length_fmap.
  - apply same_functions_alter. intros fn.
    apply signature_set_blocks, length_fmap.
  - apply same_functions_fmap. intros fn.
    apply signature_set_blocks, length_fmap.
Qed.

Lemma edit_same N m m' : edit N m m' → same_functions m m'.
Proof.
  destruct 1 as [m m' Hb | F x m _]; [by eapply build_same |].
  apply same_functions_alter. intros fn.
  apply signature_set_blocks, length_fmap.
Qed.

Lemma edits_same N m m' : rtc (edit N) m m' → same_functions m m'.
Proof.
  induction 1 as [| m1 m2 m3 He _ IH]; [apply same_functions_refl |].
  eapply same_functions_trans; [by eapply edit_same | done].
Qed.

(** X9.  A run leaves the skeleton of the module as it is.  The data layout is
    unchanged; every function is still there with its type, its subprogram and
    as many basic blocks as before, so that a declaration stays a declaration
    and a definition a definition; the one function a run may add is the
    declaration of the hook. *)
Theorem functions_kept order s bs s' :
  wf (st_module s) → pass_ok (st_pass s) →
  runOnFunctions order s = Done (bs, s') →
  m_datalayout (st_module s') = m_datalayout (st_module s)
  ∧ (∀ G fn, m_functions (st_module s) !! G = Some fn →
       ∃ fn', m_functions (st_module s') !! G = Some fn'
              ∧ f_type fn' = f_type fn
              ∧ f_subprogram fn' = f_subprogram fn
              ∧ length (f_blocks fn') = length (f_blocks fn)
              ∧ isDeclaration fn' = isDeclaration fn)
  ∧ (∀ G fn', m_functions (st_module s') !! G = Some fn' →
       is_Some (m_functions (st_module s) !! G)
       ∨ (G = hook ∧ f_blocks fn' = [] ∧ f_subprogram fn' = None)).
Proof.
  intros Hwf Hok H.
  destruct (runOnFunctions_spec (λ _, False) _ _ _ _ Hwf Hok H)
    as [[He _ _ _] _].
  destruct (edits_same _ _ _ He) as [Hd Ho Hn]. split; [done |]. split.
  - intros G fn HG. pose proof (Ho G (mk_is_Some _ _ HG)) as E.
    unfold signature_of in E. rewrite HG in E.
    destruct (m_functions (st_module s') !! G) as [fn' |]; [| done].
    injection E as Ht Hs Hl. exists fn'. repeat split; try done.
    unfold isDeclaration. destruct (f_blocks fn'), (f_blocks fn); done.
  - intros G fn' HG.
    destruct (m_functions (st_module s) !! G) as [fn |] eqn:E; [by left |].
    right. destruct (Hn G E) as [H' | [-> [ty H']]]; [congruence |].
    unfold signature_of in H'. rewrite HG in H'. injection H' as _ Hs Hl.
    split; [done |]. split; [| done]. by destruct (f_blocks fn').
Qed.

(** * The globals of a run *)










(** * When a run completes under the Symbolic policy *)






(** ** The conditions are kept by the edits *)

Lemma evolved_type m i0 i : evolved m i0 i → i_type i = i_type i0.
Proof. by intros [-> | (? & ? & ? & ? & ? & _ & _ & _ & _ & ->)]. Qed.







(** ** The hook stays ready *)








(** * The instructions that a run leaves *)





(** Where an instruction of the module comes from, after edits: it was put in
    by the pass, or it is what has become of an instruction that was there. *)
Lemma edits_origin N m0 m G i :
  rtc (edit N) m0 m → i ∈ function_insts m G →
  (N ≤ i_id i ∧ (is_load i ∨ is_init i))
  ∨ ∃ i0, i0 ∈ function_insts m0 G ∧ i_id i0 = i_id i
          ∧ classify m0 i0 = classify m i.
Proof.
  intros H. revert i. pattern m. revert m H.
  apply rtc_ind_r; [intros i Hi; right; by exists i |].
  intros m1 m2 _ He IH i Hi.
  destruct (edit_backward He G i Hi) as [[[Hfr _] Hk] | (i1 & Hi1 & Hev)];
    [by left |].
  rewrite (edit_classify He), (evolved_classify _ _ _ _ Hev).
  rewrite (evolved_id _ _ _ Hev).
  destruct (IH i1 Hi1) as [[Hn Hk] | (i0 & Hi0 & Hid & Hc)].
  - left. split; [done |].
    destruct Hev as [-> | (x & v & F & CI & name & Hv & _ & _ & _ & ->)];
      [done |].
    by rewrite is_load_subst, is_init_subst.
  - right. by exists i0.
Qed.






(** * The lists of instructions after a loop turn *)

Lemma turned_plain F x G l :
  turned F x [] None None G l = if decide (G = F) then erase x l else l.
Proof. unfold turned, pre_of. simpl. by repeat case_decide. Qed.

Arguments turned : simpl never.

Lemma step_lists F x s s' :
  wf (st_module s) → pass_ok (st_pass s) →
  runOnInstruction F x s = Done (true, s') →
  ∃ CI name pre ld v new,
    find_inst (st_module s) F x = Some CI
    ∧ classify (st_module s) CI = Eligible name
    ∧ turn s CI s' pre ld v new
    ∧ (∀ G, function_insts (st_module s') G
            = turned F x pre ld v G (function_insts (st_module s) G))
    ∧ m_globals (st_module s') = m_globals (st_module s) ++ new
    ∧ m_datalayout (st_module s') = m_datalayout (st_module s)
    ∧ st_static s' = st_static (reported name CI s).
Proof.
  intros Hwf Hok H.
  destruct (runOnInstruction_flag _ _ _ _ _ H) as (CI & name & Ef & Ec).
  pose proof Ef as [HCI Hx]%find_inst_Some.
  exists CI, name.
  destruct (isVoidTy (i_type CI)) eqn:Ev.
  { rewrite (runOnInstruction_void _ _ _ _ _ Ef Ec Ev) in H. injection H as <-.
    exists [], None, None, []. split; [done |]. split; [done |].
    split; [apply turn_void; simpl; by rewrite ?reported_pass, ?reported_module |].
    split; [| simpl; by rewrite app_nil_r, reported_module].
    intros G. simpl. rewrite turned_plain, function_insts_erase, Hx.
    by rewrite reported_module. }
  destruct (_nosym (st_pass s)) eqn:En.
  { rewrite (runOnInstruction_zero _ _ _ _ _ Ef Ec Ev En) in H. injection H as <-.
    exists [], None, (Some (VConst (CNull (i_type CI)))), [].
    split; [done |]. split; [done |].
    split; [apply turn_zero; simpl; by rewrite ?reported_pass, ?reported_module |].
    split; [| simpl; by rewrite app_nil_r, reported_module].
    intros G. simpl. rewrite function_insts_erase, function_insts_rauw, Hx.
    rewrite reported_module. unfold turned, pre_of. simpl.
    case_decide; [by rewrite erase_rauw; repeat case_decide |].
    by repeat case_decide. }
  destruct (runOnInstruction_symbolic _ _ _ _ _ _ _ Ef Ec Ev En H)
    as (_ & _ & G0 & s2 & H2 & ->).
  set (s1 := set_module _ (reported name CI s)) in *.
  assert (Hm1 : ∀ G, function_insts (st_module s1) G
                     = function_insts (st_module s) G).
  { intros G. unfold s1. simpl.
    by rewrite function_insts_add_global, reported_module. }
  assert (Hwf1 : wf (st_module s1)).
  { intros G. rewrite Hm1. unfold s1. simpl. rewrite reported_module.
    apply Hwf. }
  assert (Hn1 : m_next_id (st_module s1) = m_next_id (st_module s)).
  { unfold s1. simpl. by rewrite reported_module. }
  assert (Hg1 : m_globals (st_module s1)
                = m_globals (st_module s) ++ [name_global]).
  { unfold s1. simpl. by rewrite reported_module. }
  assert (Hp1 : st_pass s1 = st_pass s).
  { unfold s1. simpl. by rewrite reported_pass. }
  assert (Hd1 : m_datalayout (st_module s1) = m_datalayout (st_module s)).
  { unfold s1. simpl. by rewrite reported_module. }
  assert (Hfin : ∀ pre ld v G,
            ld = load_inst (m_next_id (st_module s2)) (i_type CI) G0 →
            v = VInstr (m_next_id (st_module s2)) →
            (∀ G, function_insts (st_module s2) G
                  = pre_of G pre ++ function_insts (st_module s) G) →
            function_insts
              (m_erase F (i_id CI)
                 (m_rauw (i_id CI) (VInstr (m_next_id (st_module s2)))
                    (m_insert F
                       (load_inst (m_next_id (st_module s2)) (i_type CI) G0)
                       (i_id CI) (m_alloc (st_module s2))))) G
            = turned F x pre (Some ld) (Some v) G
                (function_insts (st_module s) G)).
  { intros pre ld v G -> -> Hfi2.
    rewrite function_insts_erase, function_insts_rauw, function_insts_insert.
    rewrite function_insts_alloc, Hfi2, Hx. unfold turned. simpl.
    case_decide; [by rewrite erase_rauw |]. done. }
  assert (Hok1 : pass_ok (st_pass s1)) by (by rewrite Hp1).
  assert (Hd2 : m_datalayout (st_module s2) = m_datalayout (st_module s)).
  { destruct (getGlobalNondet_frame _ _ _ _ Hwf1 Hok1 H2) as [Hb _ _ _].
    destruct (edits_same _ _ _ (builds_edits _ _ _ Hb)) as [Hd _ _].
    by rewrite Hd. }
  assert (Hs1 : st_static s1 = st_static (reported name CI s)) by done.
  assert (Hf1 : m_functions (st_module s1) = m_functions (st_module s)).
  { unfold s1. simpl. by rewrite reported_module. }
  set (n := m_next_id (st_module s)) in *. clearbody s1.
  destruct (added_globals (st_pass s1) !! i_type CI) as [G1 |] eqn:Ea.
  - rewrite (getGlobalNondet_hit _ _ _ Ea) in H2. injection H2 as <- <-.
    rewrite Hn1 in Hfin. rewrite Hp1 in Ea.
    exists [], (Some (load_inst n (i_type CI) G1)), (Some (VInstr n)),
      [name_global].
    split; [done |]. split; [done |].
    split; [| split; [| split; [| split]]].
    + by apply (turn_hit s CI _ G1 Ev En Ea); simpl; rewrite ?Hn1.
    + intros G. simpl. rewrite Hn1. apply Hfin; [done | done |].
      intros G'. rewrite Hm1. unfold pre_of. by case_decide.
    + simpl. by rewrite Hg1.
    + done.
    + done.
  - pose proof H2 as H2'.
    apply getGlobalNondet_main in H2
      as (vms & size_t & main_fn & main_fn' & I1 & b0 & bs & Hvms & HG0 & Hmain
          & _ & _ & _ & Hfi & Hnx); [| done | done].
    assert (Hloc : CallAddMetadata main_fn = entry_loc (st_module s)).
    { unfold entry_loc. by rewrite <- Hf1, Hmain. }
    apply getGlobalNondet_cases in H2'
      as [[Hhit _] | (_ & _ & Hg2 & Ha2 & Hst2 & _)]; [congruence |].
    assert (vms = hook) as ->.
    { destruct Hvms as [-> | Hvms]; [done |]. rewrite Hp1 in Hvms.
      destruct Hok as [Hok | Hok]; congruence. }
    rewrite Hn1, Hd1 in *. rewrite Hg1 in HG0, Hg2. rewrite Hp1 in Ea, Ha2.
    rewrite length_app in HG0. simpl in HG0. rewrite Nat.add_1_r in HG0.
    subst G0. fold n in Hnx, Hfi. rewrite Hnx in Hfin.
    set (G0 := S (length (m_globals (st_module s)))) in *.
    rewrite Hloc in Hfi.
    exists [cast_inst n G0;
            init_call hook (S n) n size_t
              (getTypeAllocSize (m_datalayout (st_module s)) (i_type CI))
              (S G0) (entry_loc (st_module s))],
      (Some (load_inst (S (S n)) (i_type CI) G0)), (Some (VInstr (S (S n)))),
      [name_global; nondet_global (i_type CI); name_global].
    split; [done |]. split; [done |].
    split; [| split; [| split; [| split]]].
    + apply (turn_miss s CI _ size_t Ev En Ea);
        simpl; [done | by rewrite Hnx].
    + intros G. simpl. rewrite Hnx. apply Hfin; [done | done |].
      intros G'. rewrite Hfi, Hm1. unfold pre_of. by case_decide.
    + simpl. by rewrite Hg2, <- app_assoc.
    + done.
    + simpl. by rewrite Hst2.
Qed.

(** * The calls to the hook and the globals of a run *)

Section counting.
Context (P : Instruction → Prop) `{∀ i, Decision (P i)}.




End counting.


Lemma not_hook_call_load id ty G : callee_name (load_inst id ty G) ≠ Some hook.
Proof. done. Qed.









(** * The globals that a run creates are made symbolic *)







(** * The callees that a run reports *)


Lemma ids_turned F x pre ld v G l y :
  y ∈ ids l → G ≠ F ∨ y ≠ x → y ∈ ids (turned F x pre ld v G l).
Proof.
  intros (i & -> & Hi)%list_elem_of_fmap Hne. unfold turned.
  assert (Hin : i ∈ (if decide (G = F)
                     then erase x (inserted ld x (pre_of G pre ++ l))
                     else pre_of G pre ++ l)).
  { case_decide as E.
    - apply elem_of_erase. split; [| by destruct Hne].
      assert (i ∈ pre_of G pre ++ l) as Hi' by (apply elem_of_app; by right).
      destruct ld as [LI |]; [| done]. simpl.
      apply elem_of_insert_before. by left.
    - apply elem_of_app. by right. }
  destruct v as [w |]; simpl.
  - rewrite ids_rauw. by apply list_elem_of_fmap_2.
  - by apply list_elem_of_fmap_2.
Qed.




(** * The loads that a run puts in *)

Lemma elem_of_turned F x pre ld v G l i' :
  i' ∈ turned F x pre ld v G l →
  ∃ i, i' = redirect1 v x i
       ∧ (i ∈ pre_of G pre ∨ i ∈ l ∨ (ld = Some i ∧ G = F)).
Proof.
  unfold turned. intros Hi'.
  assert (∃ i, i' = redirect1 v x i
               ∧ i ∈ (if decide (G = F)
                      then erase x (inserted ld x (pre_of G pre ++ l))
                      else pre_of G pre ++ l)) as (i & -> & Hi).
  { destruct v as [w |]; simpl in *; [| by exists i'].
    apply list_elem_of_fmap in Hi' as (i & -> & Hi). by exists i. }
  exists i. split; [done |]. case_decide as E.
  - apply elem_of_erase in Hi as [Hi _]. destruct ld as [LI |]; simpl in Hi.
    + apply elem_of_insert_before in Hi as [Hi | [-> _]]; [| by right; right].
      apply elem_of_app in Hi as [Hi | Hi]; auto.
    + apply elem_of_app in Hi as [Hi | Hi]; auto.
  - apply elem_of_app in Hi as [Hi | Hi]; auto.
Qed.









(** * The results of the deleted calls are not used any more *)

Lemma edits_origin_type N m0 m G i :
  rtc (edit N) m0 m → i ∈ function_insts m G →
  (N ≤ i_id i ∧ (is_load i ∨ is_init i))
  ∨ ∃ i0, i0 ∈ function_insts m0 G ∧ i_id i0 = i_id i
          ∧ i_type i0 = i_type i.
Proof.
  intros H. revert i. pattern m. revert m H.
  apply rtc_ind_r; [intros i Hi; right; by exists i |].
  intros m1 m2 _ He IH i Hi.
  destruct (edit_backward He G i Hi) as [[[Hfr _] Hk] | (i1 & Hi1 & Hev)];
    [by left |].
  rewrite (evolved_id _ _ _ Hev), (evolved_type _ _ _ Hev).
  destruct (IH i1 Hi1) as [[Hn Hk] | (i0 & Hi0 & Hid & Hc)].
  - left. split; [done |].
    destruct Hev as [-> | (x & v & F & CI & name & Hv & _ & _ & _ & ->)];
      [done |].
    by rewrite is_load_subst, is_init_subst.
  - right. by exists i0.
Qed.

Lemma uses_redirect1 v x y i :
  uses y (redirect1 v x i) →
  uses y i ∧ (v = None ∨ y ≠ x) ∨ v = Some (VInstr y).
Proof.
  destruct v as [w |]; simpl; [| by left; split; [| left]].
  unfold uses. rewrite operands_subst.
  intros (o & E & Ho)%list_elem_of_fmap. rewrite subst_value_spec in E.
  case_decide as Eo; [by right; subst |].
  left. subst o. split; [done |]. right. congruence.
Qed.

Lemma turn_no_uses s CI s' pre ld v new i y :
  turn s CI s' pre ld v new →
  i ∈ pre ∨ ld = Some i → uses y i → m_next_id (st_module s) ≤ y.
Proof.
  unfold uses. intros Ht [Hi | Hi] Hu.
  - destruct Ht; try by apply elem_of_nil in Hi.
    revert Hi Hu.
    intros [-> | [-> | []%elem_of_nil]%elem_of_cons]%elem_of_cons;
      unfold operands, cast_inst, init_call; simpl.
    + by intros ?%list_elem_of_singleton.
    + intros Hu. apply elem_of_cons in Hu. destruct Hu as [E | Hu]; [done |].
      apply elem_of_cons in Hu. destruct Hu as [E | Hu].
      { injection E as E. unfold n in E. lia. }
      apply elem_of_cons in Hu. destruct Hu as [E | Hu]; [done |].
      by apply list_elem_of_singleton in Hu.
  - destruct Ht; try done; injection Hi as <-;
      unfold operands, load_inst in Hu; simpl in Hu;
      by apply list_elem_of_singleton in Hu.
Qed.

Lemma unused_refl s : wf (st_module s) → pass_ok (st_pass s) → unused s s.
Proof.
  intros Hwf Hok. split; [by apply run_post_refl | done |].
  intros F i0 name Hi _ _. left. by apply list_elem_of_fmap_2.
Qed.

Lemma runOnInstruction_unused s0 F x s b s' :
  unused s0 s → runOnInstruction F x s = Done (b, s') → unused s0 s' ∧ True.
Proof.
  intros [Hpost Hwf0 Hdel] H. split; [| done].
  pose proof Hpost as [He Hwf Hok _].
  pose proof (runOnInstruction_post _ _ _ _ _ Hwf Hok H) as Hpost1.
  destruct b.
  2:{ apply runOnInstruction_flag in H as [-> _]. by split. }
  destruct (step_lists _ _ _ _ Hwf Hok H)
    as (CI & name' & pre & ld & v & new & Ef & Ec & Ht & Hfi & _ & _ & _).
  pose proof Ef as [HCI Hx]%find_inst_Some.
  pose proof (edits_next _ _ _ He) as Hnext.
  split; [by eapply run_post_trans | done |].
  intros G0 i0 name Hi0 Hc0 Hv0.
  pose proof (wf_fresh _ _ _ Hwf0 Hi0) as Hy.
  assert (Hkeep : (∀ G i, i ∈ function_insts (st_module s) G →
                          ¬ uses (i_id i0) i) →
                  ∀ G i, i ∈ function_insts (st_module s') G →
                         ¬ uses (i_id i0) i).
  { intros Hno G i' Hi' Hu. rewrite Hfi in Hi'.
    apply elem_of_turned in Hi' as (i & -> & Hi).
    apply uses_redirect1 in Hu as [[Hu _] | ->].
    - destruct Hi as [Hi | [Hi | [Hi _]]].
      + unfold pre_of in Hi. case_decide; [| by apply elem_of_nil in Hi].
        pose proof (turn_no_uses _ _ _ _ _ _ _ _ _ Ht (or_introl Hi) Hu). lia.
      + by eapply Hno.
      + pose proof (turn_no_uses _ _ _ _ _ _ _ _ _ Ht (or_intror Hi) Hu). lia.
    - inversion Ht; repeat match goal with z := _ |- _ => subst z end;
        simplify_eq; lia. }
  destruct (Hdel G0 i0 name Hi0 Hc0 Hv0) as [Hin | Hno].
  2:{ right. by apply Hkeep. }
  destruct (decide (G0 = F ∧ i_id i0 = x)) as [[-> Hid] | Hne].
  - right. intros G i' Hi' Hu. rewrite Hfi in Hi'.
    apply elem_of_turned in Hi' as (i & -> & Hi).
    assert (Hty : i_type CI = i_type i0).
    { destruct (edits_origin_type _ _ _ _ _ He HCI)
        as [[_ Hk] | (j0 & Hj0 & Hjid & Hjt)].
      - by rewrite (classify_injected _ _ Hk) in Ec.
      - destruct (Hwf0 F) as [Hnd _].
        assert (j0 = i0) as -> by (by eapply NoDup_ids_inj; [| | | congruence]).
        done. }
    rewrite Hid in Hu.
    destruct Ht as [Hvoid | | |]; [congruence | | |]; simpl in Hu.
    + by eapply subst_no_use in Hu.
    + eapply subst_no_use in Hu; [done |]. intros [= E].
      pose proof (wf_fresh _ _ _ Hwf HCI). lia.
    + eapply subst_no_use in Hu; [done |]. intros [= E].
      pose proof (wf_fresh _ _ _ Hwf HCI). lia.
  - left. rewrite Hfi. apply ids_turned; [done |].
    destruct (decide (G0 = F)); [right | by left]. naive_solver.
Qed.

(** X19.  After a run over all functions, no instruction of the module uses the
    result of a call that the module had to delete: every use has been
    redirected, and no later edit brings one back. *)
Theorem deleted_results_unused order s bs s' F i0 name :
  wf (st_module s) → pass_ok (st_pass s) → covers order (st_module s) →
  runOnFunctions order s = Done (bs, s') →
  i0 ∈ function_insts (st_module s) F →
  classify (st_module s) i0 = Eligible name →
  isVoidTy (i_type i0) = false →
  ∀ G i, i ∈ function_insts (st_module s') G → ¬ uses (i_id i0) i.
Proof.
  intros Hwf Hok Hcov H Hi0 Hc0 Hv0.
  destruct (runOnFunctions_rel (unused s) (λ _ _, True) (λ _, I)
              (λ _ _ _ _ _, I) (runOnInstruction_unused s) order s bs s'
              (unused_refl s Hwf Hok) H) as [[[He _ _ _] _ Hdel] _].
  pose proof (run_leaves_no_call _ _ _ _ Hwf Hok Hcov H) as Hskip.
  destruct (Hdel F i0 name Hi0 Hc0 Hv0) as [Hin | Hno]; [| done].
  apply list_elem_of_fmap in Hin as (i & Hid & Hi).
  destruct (edits_origin _ _ _ _ _ He Hi) as [[Hn _] | (j0 & Hj0 & Hjid & Hjc)].
  - pose proof (wf_fresh _ _ _ Hwf Hi0). lia.
  - destruct (Hwf F) as [Hnd _].
    assert (j0 = i0) as -> by (by eapply NoDup_ids_inj; [| | | congruence]).
    rewrite (Hskip _ _ Hi) in Hjc. congruence.
Qed.

(** * More of the pass at work on [ex_module] *)







Lemma make_symbolic_hook_mismatch_witness :
  get_verifier_make_symbolic ex_hooked = AssertionFailed cast_failed
  ∧ runOnFunctions ex_order ex_hooked = AssertionFailed cast_failed.
Proof.
  split; [| by vm_compute].
  apply (make_symbolic_hook_mismatch ex_hooked (declaration (FunctionTy VoidTy [])));
    [done | by vm_compute | by vm_compute].
Defined.



Lemma unnamed_callee_asserts_witness :
  classify (st_module ex_unnamed) (call_fn 0 VoidTy "" []) = NoName
  ∧ runOnInstruction "main" 0 ex_unnamed = AssertionFailed "callee->hasName()".
Proof.
  apply (unnamed_callee_asserts "main" 0 ex_unnamed (call_fn 0 VoidTy "" [])
           {| f_type := FunctionTy VoidTy []; f_subprogram := None;
              f_blocks := [[ inst 2 VoidTy (Other "ret" []) ]] |});
    by vm_compute.
Defined.

Lemma functions_kept_witness :
  ∃ fn', m_functions (st_module (snd (ex_run new_DeleteUndefined))) !! "f"
         = Some fn'
         ∧ f_type fn' = FunctionTy VoidTy []
         ∧ length (f_blocks fn') = 2
         ∧ isDeclaration fn' = false.
Proof.
  assert (Hrun : runOnFunctions ex_order ex_symbolic
                 = Done (fst (ex_run new_DeleteUndefined),
                         snd (ex_run new_DeleteUndefined)))
    by (vm_compute; reflexivity).
  destruct (functions_kept ex_order ex_symbolic _ _ ex_wf (or_introl eq_refl) Hrun)
    as (_ & Hold & _).
  clear Hrun.
  destruct (Hold "f" ex_f) as (fn' & Hfn' & Ht & _ & Hl & Hd);
    [vm_compute; reflexivity |].
  exists fn'. split; [exact Hfn' |]. rewrite Ht, Hl, Hd. clear.
  repeat split.
Defined.










Lemma deleted_results_unused_witness :
  foo_in_f ∈ function_insts ex_module "f"
  ∧ ∀ G i, i ∈ function_insts (st_module (snd (ex_run new_DeleteUndefined))) G →
           ¬ uses 3 i.
Proof.
  assert (Hrun : runOnFunctions ex_order ex_symbolic
                 = Done (fst (ex_run new_DeleteUndefined),
                         snd (ex_run new_DeleteUndefined)))
    by (vm_compute; reflexivity).
  assert (Hin : foo_in_f ∈ function_insts ex_module "f")
    by (refine (bool_decide_unpack _ _); vm_compute; exact I).
  split; [exact Hin |].
  apply (deleted_results_unused ex_order ex_symbolic _ _ "f" foo_in_f "foo" ex_wf
           (or_introl eq_refl) ex_covers Hrun Hin); clear; vm_compute;
    reflexivity.
Defined.
